(** * SearchableMultiSelect: a shallow embedding of the dropdown control

    Source: [src/client/src/SearchableMultiselect.jsx].

    The component is a React function component.  Its props are a record,
    its [useState] cells are the fields of a state record, its event handlers
    are functions from props and state to a new state together with the calls
    made to the host's [onChange] callback, and its two [useEffect] hooks are
    functions run when one of their dependencies changes.  The network fetch
    is the only suspension point: a started fetch is an entry of a table that
    holds the [cancelled] variable of its closure, and its resolution is an
    event of the step function.

    Conventions of the model:
    - a JavaScript string is a [string]; [toLowerCase] and [trim] act on the
      ASCII range (letters [A]-[Z], white space tab, line feed, vertical tab,
      form feed, carriage return and space);
    - an array of strings is a [list string]; the component never writes to
      an array it received, and module [ArrayStore] makes the references
      explicit where a statement is about that;
    - a JavaScript number is an IEEE 754 binary64 value, the primitive
      [float]: [-] and [*] round to nearest (ties to even), there is one
      [NaN], and the two zeros are distinct values; pixel quantities
      ([getBoundingClientRect], [window.innerWidth]) are such numbers;
    - a JSON number is an integer [Z] printed in decimal;
    - [localeCompare] is a parameter, the class [Collator]; the instance
      [ascii_collator] is used where the model is evaluated. *)

From Stdlib Require Import Floats Lia ZArith Ascii String.
From stdpp Require Import base list sets strings sorting pretty.

Open Scope Z_scope.

#[local] Set Warnings "-clear-no-such-hyp".

(** A decimal literal denotes the nearest double, as in JavaScript. *)
#[local] Set Warnings "-inexact-float".

(** ** JavaScript strings *)

Module JsString.

Definition is_upper (c : ascii) : bool :=
  let n := nat_of_ascii c in (65 <=? n)%nat && (n <=? 90)%nat.

Definition lower_char (c : ascii) : ascii :=
  if is_upper c then ascii_of_nat (nat_of_ascii c + 32) else c.

(** [s.toLowerCase()] *)
Fixpoint toLowerCase (s : string) : string :=
  match s with
  | EmptyString => EmptyString
  | String c t => String (lower_char c) (toLowerCase t)
  end.

Definition is_space (c : ascii) : bool :=
  let n := nat_of_ascii c in
  ((9 <=? n)%nat && (n <=? 13)%nat) || (n =? 32)%nat.

Fixpoint trimStart (s : string) : string :=
  match s with
  | EmptyString => EmptyString
  | String c t => if is_space c then trimStart t else s
  end.

Fixpoint trimEnd (s : string) : string :=
  match s with
  | EmptyString => EmptyString
  | String c t =>
      match trimEnd t with
      | EmptyString => if is_space c then EmptyString else String c EmptyString
      | t' => String c t'
      end
  end.

(** [s.trim()] *)
Definition trim (s : string) : string := trimEnd (trimStart s).

(** [s.includes(q)]: [q] occurs in [s] as a contiguous substring. *)
Fixpoint includes (s q : string) : bool :=
  String.prefix q s ||
  match s with
  | EmptyString => false
  | String _ t => includes t q
  end.

(** Truthiness of a string: [!q] holds exactly for the empty string. *)
Definition truthy (s : string) : bool :=
  match s with EmptyString => false | _ => true end.

End JsString.

(** ** Arrays of strings and [Set] *)

Module JsArray.

(** [a.includes(x)] *)
Definition includes (a : list string) (x : string) : bool :=
  bool_decide (x ∈ a).

(** [set.add(x)] on a [Set] kept in insertion order. *)
Definition Set_add (s : list string) (x : string) : list string :=
  if includes s x then s else s ++ [x].

(** [Array.from(new Set(a))]: the elements of [a] are added from left to
    right, so the first occurrence of each element fixes its place. *)
Definition Array_from_Set (a : list string) : list string :=
  foldl Set_add [] a.

End JsArray.

(** ** Props *)

(** The identity of the host's [onChange] function. *)
Definition callback := nat.

(** A call made to the host: [f(arg)]. *)
Inductive HostCall := Call (f : callback) (arg : list string).

Record Props := {
  values : option (list string);   (* [null] or an array *)
  options : list string;
  selected : list string;
  onChange : option callback;      (* [onChange?.(..)] calls it when present *)
  label : string;
  maxPanelHeight : float;
  multiSelect : bool;
  dataUrl : option string          (* [null] or a string *)
}.

(** [onChange?.(next)] *)
Definition call_onChange (p : Props) (next : list string) : list HostCall :=
  match onChange p with
  | Some f => [Call f next]
  | None => []
  end.

(** ** SelectionModel: [toggleOption], [selectAll], [clearAll] *)

Definition toggleOption_next (p : Props) (opt : string) : list string :=
  if multiSelect p then
    if JsArray.includes (selected p) opt
    then filter (λ s, s ≠ opt) (selected p)
    else selected p ++ [opt]
  else
    match selected p with
    | [s0] => if bool_decide (s0 = opt) then [] else [opt]
    | _ => [opt]
    end.

Definition toggleOption (p : Props) (opt : string) : list HostCall :=
  call_onChange p (toggleOption_next p opt).

Definition selectAll_next (p : Props) (filtered : list string) : list string :=
  JsArray.Array_from_Set (selected p ++ filtered).

Definition selectAll (p : Props) (filtered : list string) : list HostCall :=
  call_onChange p (selectAll_next p filtered).

Definition clearAll (p : Props) : list HostCall := call_onChange p [].

(** ** Array references

    [selected] is a reference to an array object owned by the host.  Here the
    arrays live in a store addressed by position; [filter] and the spread
    literal allocate a new array and leave the store's other arrays alone. *)

Module ArrayStore.

Abbreviation loc := nat (only parsing).
Abbreviation store := (list (list string)) (only parsing).

Definition alloc (h : store) (a : list string) : store * loc :=
  (h ++ [a], length h).

(** [a.filter(s => s !== opt)] *)
Definition Array_filter_ne (h : store) (a : loc) (opt : string)
  : option (store * loc) :=
  elems ← h !! a; Some (alloc h (filter (λ s, s ≠ opt) elems)).

(** [[...a, opt]] *)
Definition Array_spread_push (h : store) (a : loc) (opt : string)
  : option (store * loc) :=
  elems ← h !! a; Some (alloc h (elems ++ [opt])).

(** [[]] and [[opt]] *)
Definition Array_literal (h : store) (elems : list string)
  : option (store * loc) :=
  Some (alloc h elems).

(** [toggleOption] with [selected] held by reference: the result is the
    store after the call and the array handed to [onChange]. *)
Definition toggleOption_ref (multi : bool) (h : store) (sel : loc)
    (opt : string) : option (store * loc) :=
  elems ← h !! sel;
  if multi then
    if JsArray.includes elems opt
    then Array_filter_ne h sel opt
    else Array_spread_push h sel opt
  else
    match elems with
    | [s0] => if bool_decide (s0 = opt)
              then Array_literal h [] else Array_literal h [opt]
    | _ => Array_literal h [opt]
    end.

End ArrayStore.

(** ** Exceptions *)

(** A computation that returns a value or throws an error with a message
    ([err.message]). *)
Inductive Result (A : Type) :=
| Ok (a : A)
| Throw (message : string).
Arguments Ok {A} a.
Arguments Throw {A} message.

Definition bind {A B} (m : Result A) (k : A → Result B) : Result B :=
  match m with
  | Ok a => k a
  | Throw e => Throw e
  end.

Notation "x ←! m ; k" := (bind m (λ x, k))
  (at level 20, m at level 100, k at level 200, right associativity,
   format "x  ←!  m ;  k").

(** [a.map(f)] for an [f] that may throw: elements are visited from left to
    right and the first exception ends the call. *)
Fixpoint mapM {A B} (f : A → Result B) (l : list A) : Result (list B) :=
  match l with
  | [] => Ok []
  | x :: t => y ←! f x; ys ←! mapM f t; Ok (y :: ys)
  end.

(** ** JSON values, as [res.json()] returns them *)

#[local] Unset Elimination Schemes.
Inductive json :=
| JNull
| JBool (b : bool)
| JNum (n : Z)
| JStr (s : string)
| JArr (elems : list json)
| JObj (fields : list (string * json)).
#[local] Set Elimination Schemes.

(** The result of a property read: [None] is [undefined]. *)
Definition jsval := option json.

Module Js.

(** [typeof v === "object"]; it holds of [null] too. *)
Definition typeof_object (v : json) : bool :=
  match v with
  | JNull | JArr _ | JObj _ => true
  | _ => false
  end.

(** Truthiness of a JSON value. *)
Definition truthy (v : json) : bool :=
  match v with
  | JNull => false
  | JBool b => b
  | JNum n => negb (n =? 0)
  | JStr s => JsString.truthy s
  | JArr _ | JObj _ => true
  end.

(** The first binding of key [k] among the own properties [fs] (a parsed
    object has each key once). *)
Fixpoint own (fs : list (string * json)) (k : string) : jsval :=
  match fs with
  | [] => None
  | (k', v) :: t => if bool_decide (k' = k) then Some v else own t k
  end.

(** The message of the [TypeError] raised by a property read on [null]. *)
Definition null_read_message (k : string) : string :=
  "Cannot read properties of null (reading '" +:+ k +:+ "')".

(** [v.k] for the property names the component reads ([Symbol], [symbol],
    [Value], [value], [Industry], [industry], [Sector], [sector],
    [symbols]): none of them is on a prototype, so the read finds an own
    property of an object, is [undefined] on every other value, and throws
    on [null]. *)
Definition prop (v : json) (k : string) : Result jsval :=
  match v with
  | JNull => Throw (null_read_message k)
  | JObj fs => Ok (own fs k)
  | _ => Ok None
  end.

(** [v == null] *)
Definition nullish (v : jsval) : bool :=
  match v with
  | None | Some JNull => true
  | _ => false
  end.

(** [item.k1 ?? item.k2 ?? ... ?? null]: a key is read only when the reads
    before it gave [null] or [undefined]. *)
Fixpoint coalesce (item : json) (keys : list string) : Result json :=
  match keys with
  | [] => Ok JNull
  | k :: ks =>
      v ←! prop item k;
      match v with
      | Some (JNull) | None => coalesce item ks
      | Some w => Ok w
      end
  end.

Definition join (sep : string) (parts : list string) : string :=
  match parts with
  | [] => ""
  | p :: ps => foldl (λ acc x, acc +:+ sep +:+ x) p ps
  end.

Definition no_primitive_message : string :=
  "Cannot convert object to primitive value".

(** [String(v)].  An array is joined with commas, [null] elements giving
    the empty string; an object prints as [[object Object]] through
    [Object.prototype.toString], unless it has an own [toString], which
    for a JSON value is not a function and leaves no primitive. *)
Fixpoint String_ (v : json) : Result string :=
  match v with
  | JNull => Ok "null"
  | JBool true => Ok "true"
  | JBool false => Ok "false"
  | JNum n => Ok (pretty n)
  | JStr s => Ok s
  | JArr l =>
      parts ←! mapM (λ x, match x with
                          | JNull => Ok ""
                          | _ => String_ x
                          end) l;
      Ok (join "," parts)
  | JObj fs =>
      match own fs "toString" with
      | Some _ => Throw no_primitive_message
      | None => Ok "[object Object]"
      end
  end.

End Js.

(** ** Collation *)

(** [a.localeCompare(b, undefined, { sensitivity: "base" })] depends on the
    host's default locale.  A collator gives the sign of the comparison; the
    comparison is total: when [a] sorts after [b], [b] does not sort after
    [a]. *)
Class Collator := {
  localeCompare : string → string → comparison;
  localeCompare_total a b : localeCompare a b = Gt → localeCompare b a ≠ Gt
}.

(** The collator of the ASCII range: letters compare without case, then by
    code unit. *)
Definition ascii_base_compare (a b : string) : comparison :=
  String.compare (JsString.toLowerCase a) (JsString.toLowerCase b).

(** [a.sort(cmp)]: a stable sort, here by insertion from the right. *)
Fixpoint sort_insert (cmp : string → string → comparison)
    (x : string) (l : list string) : list string :=
  match l with
  | [] => [x]
  | y :: t => match cmp x y with
              | Gt => y :: sort_insert cmp x t
              | _ => x :: l
              end
  end.

Definition Array_sort (cmp : string → string → comparison)
    (l : list string) : list string :=
  foldr (sort_insert cmp) [] l.

(** ** RemoteFetcher: what [load] does with the parsed body *)

(** [buildLabel(item)], with the [label] prop captured by the closure.  The
    result is a string or [null] ([None]). *)
Definition buildLabel (label : string) (item : json) : Result (option string) :=
  if bool_decide (label = "Tickers") then
    symbol ←! Js.coalesce item ["Symbol"; "symbol"; "Value"; "value"];
    if Js.nullish (Some symbol) then Ok None
    else s ←! Js.String_ symbol; Ok (Some s)
  else if bool_decide (label = "Industry") then
    industry ←! Js.coalesce item ["Industry"; "industry"];
    if Js.nullish (Some industry) then Ok None
    else s ←! Js.String_ industry; Ok (Some s)
  else if bool_decide (label = "Sector") then
    sector ←! Js.coalesce item ["Sector"; "sector"];
    if Js.nullish (Some sector) then Ok None
    else s ←! Js.String_ sector; Ok (Some s)
  else Ok None.

(** [.filter(Boolean)] on an array of strings and [null]s: [null] and the
    empty string are dropped. *)
Definition filter_Boolean (l : list (option string)) : list string :=
  omap (λ o, match o with
             | Some s => if JsString.truthy s then Some s else None
             | None => None
             end) l.

(** The two branches taken on an array [a] ([data] or [data.symbols]): the
    first element alone decides between them. *)
Definition fetched_from_array (label : string) (a : list json)
  : Result (list string) :=
  match a with
  | first :: _ =>
      if Js.typeof_object first
      then labels ←! mapM (buildLabel label) a; Ok (filter_Boolean labels)
      else mapM Js.String_ a
  | [] => mapM Js.String_ a
  end.

(** [fetchedValues] after the [if (Array.isArray(data)) .. else if ..]. *)
Definition fetchedValues (label : string) (data : json) : Result (list string) :=
  match data with
  | JArr a => fetched_from_array label a
  | _ =>
      if Js.truthy data then
        symbols ←! Js.prop data "symbols";
        match symbols with
        | Some (JArr a) => fetched_from_array label a
        | _ => Ok []
        end
      else Ok []
  end.

Section RemoteFetcher.
Context `{Collator}.

(** [uniqueValues] after [Array.from(new Set(..))] and [.sort(..)]: the
    argument of [setEffectiveOptions]. *)
Definition uniqueValues (label : string) (data : json) : Result (list string) :=
  fetched ←! fetchedValues label data;
  Ok (Array_sort localeCompare (JsArray.Array_from_Set fetched)).

End RemoteFetcher.

(** ** SearchFilter: the memoized [filtered] *)

Definition filtered_of (effectiveOptions : list string) (query : string)
  : list string :=
  let q := JsString.toLowerCase (JsString.trim query) in
  if negb (JsString.truthy q) then effectiveOptions
  else filter (λ o, JsString.includes (JsString.toLowerCase o) q = true)
              effectiveOptions.

(** ** Numbers: [Math.min] and [Math.max] *)

Module JsNumber.

Definition is_neg_zero (x : float) : bool :=
  match classify x with NZero => true | _ => false end.

Definition is_pos_zero (x : float) : bool :=
  match classify x with PZero => true | _ => false end.

(** [Math.min(a, b)]: [NaN] when an argument is [NaN]; [-0] counts as
    smaller than [+0]; otherwise the first argument unless the second is
    smaller. *)
Definition Math_min (a b : float) : float :=
  if is_nan a || is_nan b then nan
  else if is_neg_zero b && is_pos_zero a then b
  else if (b <? a)%float then b else a.

(** [Math.max(a, b)]: [NaN] when an argument is [NaN]; [+0] counts as
    larger than [-0]; otherwise the first argument unless the second is
    larger. *)
Definition Math_max (a b : float) : float :=
  if is_nan a || is_nan b then nan
  else if is_pos_zero b && is_neg_zero a then b
  else if (a <? b)%float then b else a.

End JsNumber.

Export JsNumber.

(** ** PlacementEngine: [computePlacement] *)

(** The part of [getBoundingClientRect()] that is read. *)
Record Rect := { r_left : float; r_top : float; r_width : float }.

(** What the handler sees of the page: [toggleRef.current] ([None] when the
    ref is empty) and the window's inner size. *)
Record Page := {
  toggleRef : option Rect;
  innerWidth : float;
  innerHeight : float
}.

(** The numeric fields of [panelStyle] ([position] and [zIndex] are
    constants). *)
Record PanelStyle := {
  top : float; left : float; width : float; maxHeight : float
}.

Definition pad : float := 8.

(** The object given to [setPanelStyle], or [None] on the early return. *)
Definition computePlacement (maxPanelHeight : float) (pg : Page)
  : option PanelStyle :=
  match toggleRef pg with
  | None => None
  | Some r =>
      let width := Math_min (r_width r) (innerWidth pg - pad * 2)%float in
      let left :=
        Math_max pad (Math_min (r_left r) (innerWidth pg - width - pad)%float) in
      let maxH := Math_min maxPanelHeight (innerHeight pg - pad * 2)%float in
      let top := Math_min (r_top r) (innerHeight pg - pad)%float in
      Some {| top := top; left := left; width := width; maxHeight := maxH |}
  end.

(** ** Component state *)

(** How the request of a fetch ends: [fetch] rejects, or resolves with a
    response whose [json()] gives a value or rejects. *)
Inductive Outcome :=
| FetchRejected (message : string)
| Response (status : Z) (body : Result json).

(** A fetch started by the second effect: the [dataUrl] and [label] its
    closure captured, the closure's [cancelled] variable, and the state of
    the awaited promise ([None] while it is pending). *)
Record Fetch := {
  f_url : string;
  f_label : string;
  cancelled : bool;
  settled : option Outcome
}.

Record State := {
  props : Props;                      (* the props of the last render *)
  open : bool;
  query : string;
  hoverIdx : Z;
  loading : bool;
  loadError : option string;
  effectiveOptions : list string;
  panelStyle : PanelStyle;
  fetches : list Fetch;               (* every fetch started so far *)
  cleanup : option nat                (* the fetch whose [cancelled] the
                                         pending cleanup function sets *)
}.

Definition with_props (p : Props) (st : State) : State :=
  {| props := p; open := open st; query := query st; hoverIdx := hoverIdx st;
     loading := loading st; loadError := loadError st;
     effectiveOptions := effectiveOptions st; panelStyle := panelStyle st;
     fetches := fetches st; cleanup := cleanup st |}.

Definition setOpen (b : bool) (st : State) : State :=
  {| props := props st; open := b; query := query st; hoverIdx := hoverIdx st;
     loading := loading st; loadError := loadError st;
     effectiveOptions := effectiveOptions st; panelStyle := panelStyle st;
     fetches := fetches st; cleanup := cleanup st |}.

Definition setQuery (q : string) (st : State) : State :=
  {| props := props st; open := open st; query := q; hoverIdx := hoverIdx st;
     loading := loading st; loadError := loadError st;
     effectiveOptions := effectiveOptions st; panelStyle := panelStyle st;
     fetches := fetches st; cleanup := cleanup st |}.

Definition setHoverIdx (i : Z) (st : State) : State :=
  {| props := props st; open := open st; query := query st; hoverIdx := i;
     loading := loading st; loadError := loadError st;
     effectiveOptions := effectiveOptions st; panelStyle := panelStyle st;
     fetches := fetches st; cleanup := cleanup st |}.

Definition setLoading (b : bool) (st : State) : State :=
  {| props := props st; open := open st; query := query st;
     hoverIdx := hoverIdx st; loading := b; loadError := loadError st;
     effectiveOptions := effectiveOptions st; panelStyle := panelStyle st;
     fetches := fetches st; cleanup := cleanup st |}.

Definition setLoadError (e : option string) (st : State) : State :=
  {| props := props st; open := open st; query := query st;
     hoverIdx := hoverIdx st; loading := loading st; loadError := e;
     effectiveOptions := effectiveOptions st; panelStyle := panelStyle st;
     fetches := fetches st; cleanup := cleanup st |}.

Definition setEffectiveOptions (l : list string) (st : State) : State :=
  {| props := props st; open := open st; query := query st;
     hoverIdx := hoverIdx st; loading := loading st; loadError := loadError st;
     effectiveOptions := l; panelStyle := panelStyle st;
     fetches := fetches st; cleanup := cleanup st |}.

Definition setPanelStyle (s : PanelStyle) (st : State) : State :=
  {| props := props st; open := open st; query := query st;
     hoverIdx := hoverIdx st; loading := loading st; loadError := loadError st;
     effectiveOptions := effectiveOptions st; panelStyle := s;
     fetches := fetches st; cleanup := cleanup st |}.

Definition with_fetches (fs : list Fetch) (c : option nat) (st : State) : State :=
  {| props := props st; open := open st; query := query st;
     hoverIdx := hoverIdx st; loading := loading st; loadError := loadError st;
     effectiveOptions := effectiveOptions st; panelStyle := panelStyle st;
     fetches := fs; cleanup := c |}.

(** [filtered] as the current render sees it. *)
Definition filtered (st : State) : list string :=
  filtered_of (effectiveOptions st) (query st).

(** ** OptionSourceResolver: the two effects *)

(** [Array.isArray(values) && values.length > 0] *)
Definition values_given (p : Props) : bool :=
  match values p with
  | Some (_ :: _) => true
  | _ => false
  end.

(** [!dataUrl]: [null] and the empty string are falsy. *)
Definition no_dataUrl (p : Props) : bool :=
  match dataUrl p with
  | Some u => negb (JsString.truthy u)
  | None => true
  end.

(** The first effect, dependencies [[values, options, dataUrl]]. *)
Definition sync_effect (p : Props) (st : State) : State :=
  match values p with
  | Some (v :: vs) => setEffectiveOptions (v :: vs) st
  | _ =>
      if no_dataUrl p then setEffectiveOptions (options p) st
      else st
  end.

(** The second effect, dependencies [[dataUrl, label, values]]: it returns
    early, or declares [cancelled], sets the loading state, calls [load]
    (which suspends at [await fetch(dataUrl)]) and returns the cleanup. *)
Definition fetch_effect (p : Props) (st : State) : State :=
  match dataUrl p with
  | Some u =>
      if negb (JsString.truthy u) || values_given p
      then with_fetches (fetches st) None st
      else
        let id := length (fetches st) in
        let f := {| f_url := u; f_label := label p;
                    cancelled := false; settled := None |} in
        with_fetches (fetches st ++ [f]) (Some id)
          (setLoadError None (setLoading true st))
  | None => with_fetches (fetches st) None st
  end.

(** The cleanup returned by the last run of the second effect:
    [cancelled = true] in that run's closure. *)
Definition run_cleanup (st : State) : State :=
  match cleanup st with
  | Some id =>
      with_fetches
        (alter (λ f, {| f_url := f_url f; f_label := f_label f;
                        cancelled := true; settled := settled f |})
               id (fetches st))
        None st
  | None => st
  end.

(** The state of the first render: every [useState] initial value. *)
Definition initial (p : Props) : State :=
  {| props := p; open := false; query := ""; hoverIdx := -1;
     loading := false; loadError := None;
     effectiveOptions := match values p with
                         | Some v => v
                         | None => options p
                         end;
     panelStyle := {| top := (-9999)%float; left := (-9999)%float;
                      width := 0%float; maxHeight := maxPanelHeight p |};
     fetches := []; cleanup := None |}.

(** Mounting: first render, then both effects in order. *)
Definition mount (p : Props) : State :=
  fetch_effect p (sync_effect p (initial p)).

(** Whether a dependency array differs from the one of the previous render.
    React compares with [Object.is]: two arrays with equal elements are
    still different when the host built a new one, which the [fresh] flags
    record. *)
Definition sync_deps_changed (p p' : Props) (freshValues freshOptions : bool)
  : bool :=
  freshValues || freshOptions
  || bool_decide (values p ≠ values p')
  || bool_decide (options p ≠ options p')
  || bool_decide (dataUrl p ≠ dataUrl p').

Definition fetch_deps_changed (p p' : Props) (freshValues : bool) : bool :=
  freshValues
  || bool_decide (dataUrl p ≠ dataUrl p')
  || bool_decide (label p ≠ label p')
  || bool_decide (values p ≠ values p').

(** A re-render with props [p']: the cleanups of the effects whose
    dependencies changed run first, then those effects in source order. *)
Definition rerender (p' : Props) (freshValues freshOptions : bool) (st : State)
  : State :=
  let p := props st in
  let st0 := with_props p' st in
  let st1 := if fetch_deps_changed p p' freshValues then run_cleanup st0 else st0 in
  let st2 := if sync_deps_changed p p' freshValues freshOptions
             then sync_effect p' st1 else st1 in
  if fetch_deps_changed p p' freshValues then fetch_effect p' st2 else st2.

(** ** Events *)

(** [res.ok] *)
Definition ok (status : Z) : bool := (200 <=? status) && (status <=? 299).

Inductive Key := Enter | Space | ArrowDown | ArrowUp | Escape | OtherKey.

Inductive Event :=
| Render (p' : Props) (freshValues freshOptions : bool)
| Settle (id : nat) (o : Outcome)          (* the awaited promise of a fetch *)
| KeyDown (k : Key) (pg : Page)            (* [onKeyDown] on the root *)
| QueryInput (q : string)                  (* [onChange] of the search input *)
| ToggleClick (pg : Page)                  (* [onToggleClick] *)
| OutsideMouseDown                         (* [onDocClick], outside both *)
| MouseEnter (idx : nat)                   (* on the option at [idx] *)
| OptionClick (idx : nat)
| AllClick
| ClearClick
| Reposition (pg : Page).                  (* animation frame, resize, scroll *)

(** [computePlacement()] as a state update. *)
Definition place (pg : Page) (st : State) : State :=
  match computePlacement (maxPanelHeight (props st)) pg with
  | Some s => setPanelStyle s st
  | None => st
  end.

(** [filtered[hoverIdx]]: [undefined] ([None]) outside the array. *)
Definition hovered (st : State) : option string :=
  if hoverIdx st <? 0 then None else filtered st !! Z.to_nat (hoverIdx st).

Definition onKeyDown (k : Key) (pg : Page) (st : State) : State * list HostCall :=
  if negb (open st) then
    match k with
    | Enter | Space | ArrowDown => (setHoverIdx 0 (setOpen true (place pg st)), [])
    | _ => (st, [])
    end
  else
    match k with
    | Escape => (setOpen false st, [])
    | ArrowDown =>
        (setHoverIdx (Z.min (hoverIdx st + 1) (Z.of_nat (length (filtered st)) - 1)) st, [])
    | ArrowUp => (setHoverIdx (Z.max (hoverIdx st - 1) 0) st, [])
    | Enter =>
        match hovered st with
        | Some opt => (st, toggleOption (props st) opt)
        | None => (st, [])
        end
    | _ => (st, [])
    end.

Definition onToggleClick (pg : Page) (st : State) : State :=
  if negb (open st) then setOpen true (place pg st) else setOpen false st.

Section Component.
Context `{Collator}.

(** The body of [load] from the first [await] on: the value it commits
    with [setEffectiveOptions], or the error it catches. *)
Definition load_result (label : string) (o : Outcome) : Result (list string) :=
  match o with
  | FetchRejected m => Throw m
  | Response status body =>
      if ok status then data ←! body; uniqueValues label data
      else Throw ("HTTP " +:+ pretty status)
  end.

(** [err.message || "Failed to load symbols"] *)
Definition error_text (m : string) : string :=
  if JsString.truthy m then m else "Failed to load symbols".

(** What [load] writes once its request has ended, reading [cancelled]
    at that moment. *)
Definition commit (f : Fetch) (o : Outcome) (st : State) : State :=
  if cancelled f then st
  else
    match load_result (f_label f) o with
    | Ok u => setLoading false (setEffectiveOptions u st)
    | Throw m =>
        setLoading false
          (setEffectiveOptions [] (setLoadError (Some (error_text m)) st))
    end.

(** The promise of fetch [id] settles; a promise settles once. *)
Definition settle (id : nat) (o : Outcome) (st : State) : State :=
  match fetches st !! id with
  | Some f =>
      match settled f with
      | Some _ => st
      | None =>
          commit f o
            (with_fetches
               (<[id := {| f_url := f_url f; f_label := f_label f;
                           cancelled := cancelled f; settled := Some o |}]>
                  (fetches st))
               (cleanup st) st)
      end
  | None => st
  end.

Definition step (st : State) (e : Event) : State * list HostCall :=
  match e with
  | Render p' fv fo => (rerender p' fv fo st, [])
  | Settle id o => (settle id o st, [])
  | KeyDown k pg => onKeyDown k pg st
  | QueryInput q => (setHoverIdx 0 (setQuery q st), [])
  | ToggleClick pg => (onToggleClick pg st, [])
  | OutsideMouseDown => (setOpen false st, [])
  | MouseEnter idx =>
      if bool_decide (idx < length (filtered st))%nat
      then (setHoverIdx (Z.of_nat idx) st, [])
      else (st, [])
  | OptionClick idx =>
      match filtered st !! idx with
      | Some opt => (st, toggleOption (props st) opt)
      | None => (st, [])
      end
  | AllClick =>
      if bool_decide (filtered st = []) then (st, [])
      else (st, selectAll (props st) (filtered st))
  | ClearClick =>
      if bool_decide (selected (props st) = []) then (st, [])
      else (st, clearAll (props st))
  | Reposition pg => (place pg st, [])
  end.

(** The state after a sequence of events, and the calls made to the host
    along the way. *)
Fixpoint run (st : State) (es : list Event) : State * list HostCall :=
  match es with
  | [] => (st, [])
  | e :: es' =>
      let '(st1, c1) := step st e in
      let '(st2, c2) := run st1 es' in
      (st2, c1 ++ c2)
  end.

Definition state_after (st : State) (es : list Event) : State :=
  fst (run st es).

End Component.

(** * Definitions used in the statements *)

(** ** SelectionModel *)

(** The elements of [l] not yet in [seen], each kept at its first
    occurrence: what a [Set] that already holds [seen] gains from [l]. *)
Fixpoint gained (seen l : list string) : list string :=
  match l with
  | [] => []
  | x :: t =>
      if JsArray.includes seen x then gained seen t
      else x :: gained (seen ++ [x]) t
  end.

(** Props used to evaluate the model: three tickers selected, multi-select
    mode, a host callback, no endpoint. *)
Definition demo_props : Props :=
  {| values := None; options := ["AAPL"; "APPLE"; "MSFT"];
     selected := ["AAPL"; "MSFT"; "GOOG"];
     onChange := Some 7%nat; label := "Tickers"; maxPanelHeight := 280;
     multiSelect := true; dataUrl := None |}.

(** ** SearchFilter *)

(** The filtered list as the claim words it: the options whose lowercase
    form contains the lowercase query, with no trimming. *)
Definition filtered_untrimmed (effectiveOptions : list string) (query : string)
  : list string :=
  filter (λ o, JsString.includes (JsString.toLowerCase o)
                 (JsString.toLowerCase query) = true)
         effectiveOptions.

(** ** PlacementEngine *)

(** [clamp(x, lo, hi)] of the specification. *)
Definition clamp (x lo hi : float) : float := Math_max lo (Math_min x hi).

(** The measurements are numbers: none of them is [NaN], and the viewport
    width is finite. *)
Definition measurable (maxPanelHeight : float) (pg : Page) (r : Rect) : bool :=
  is_finite (innerWidth pg) && negb (is_nan (innerHeight pg))
  && negb (is_nan (r_left r)) && negb (is_nan (r_top r))
  && negb (is_nan (r_width r)) && negb (is_nan maxPanelHeight).

(** An anchor near the bottom of a small viewport: 600 px high, the toggle's
    top edge at 590 px. *)
Definition low_anchor_page : Page :=
  {| toggleRef := Some {| r_left := 700; r_top := 590; r_width := 200 |};
     innerWidth := 800; innerHeight := 600 |}.


(** A viewport 17 px wide with an anchor 0.4 px wide at its right. *)
Definition narrow_page : Page :=
  {| toggleRef := Some {| r_left := 100; r_top := 5; r_width := 0.4 |};
     innerWidth := 17; innerHeight := 600 |}.

(** ** RemoteFetcher *)

(** A primitive value of JavaScript: anything but an array or an object. *)
Definition is_primitive (v : json) : bool :=
  match v with
  | JArr _ | JObj _ => false
  | _ => true
  end.

Definition is_object (v : json) : bool :=
  match v with
  | JObj _ => true
  | _ => false
  end.

(** The text of a primitive. *)
Definition prim_text (v : json) : string :=
  match v with
  | JNull => "null"
  | JBool true => "true"
  | JBool false => "false"
  | JNum n => pretty n
  | JStr s => s
  | _ => ""
  end.

(** The field names tried for a semantic hint, in order. *)
Definition hint_keys (label : string) : list string :=
  if bool_decide (label = "Tickers") then ["Symbol"; "symbol"; "Value"; "value"]
  else if bool_decide (label = "Industry") then ["Industry"; "industry"]
  else if bool_decide (label = "Sector") then ["Sector"; "sector"]
  else [].

(** The value of the first of [keys] that the object has with a value other
    than [null]. *)
Fixpoint first_field (keys : list string) (fs : list (string * json))
  : option json :=
  match keys with
  | [] => None
  | k :: ks =>
      match Js.own fs k with
      | Some JNull | None => first_field ks fs
      | Some w => Some w
      end
  end.

(** The label of an element whose recognised field is a primitive: the
    field's text, unless the field is missing or its text is empty. *)
Definition label_of (label : string) (item : json) : option string :=
  match item with
  | JObj fs =>
      match first_field (hint_keys label) fs with
      | Some w => if JsString.truthy (prim_text w) then Some (prim_text w) else None
      | None => None
      end
  | _ => None
  end.

(** An object whose recognised field, if it has one, is a primitive. *)
Definition plain_item (label : string) (item : json) : bool :=
  match item with
  | JObj fs =>
      match first_field (hint_keys label) fs with
      | Some w => is_primitive w
      | None => true
      end
  | _ => false
  end.

(** The array the normalisation looks at: the payload itself, or the
    [symbols] property of an object payload. *)
Definition payload_array (data : json) : option (list json) :=
  match data with
  | JArr a => Some a
  | JObj fs => match Js.own fs "symbols" with
               | Some (JArr a) => Some a
               | _ => None
               end
  | _ => None
  end.

(** The normalisation as the claim words it: an array of primitives is
    stringified, an array of objects gives the fields, anything else
    nothing. *)
Definition fetched_as_stated (label : string) (data : json) : list string :=
  match payload_array data with
  | Some a =>
      if forallb is_primitive a then prim_text <$> a
      else if forallb is_object a then
        omap (λ item, match item with
                      | JObj fs => prim_text <$> first_field (hint_keys label) fs
                      | _ => None
                      end) a
      else []
  | None => []
  end.

(** The payload of the specification's example. *)
Definition symbols_payload : json :=
  JArr [JObj [("Symbol", JStr "AAPL")]; JObj [("Symbol", JStr "msft")]].

(** An array that mixes a string and an object. *)
Definition mixed_payload : json :=
  JArr [JStr "AAPL"; JObj [("Symbol", JStr "MSFT")]].

(** An array of objects, the first with an empty [Symbol]. *)
Definition empty_symbol_payload : json :=
  JArr [JObj [("Symbol", JStr "")]; JObj [("Symbol", JStr "AAPL")]].

(** Props with an endpoint and no explicit values, under two hints. *)
Definition remote_props (hint : string) : Props :=
  {| values := None; options := ["IBM"]; selected := [];
     onChange := Some 7%nat; label := hint; maxPanelHeight := 280;
     multiSelect := true; dataUrl := Some "http://localhost:7071/api/GetSymbols" |}.

(** The first element alone selects the branch. *)
Definition head_is_object (a : list json) : bool :=
  match a with
  | x :: _ => Js.typeof_object x
  | [] => false
  end.

(** The collator used to evaluate the model on ASCII data. *)
#[export] Instance ascii_collator : Collator.
Proof.
  refine {| localeCompare := ascii_base_compare |}.
  unfold ascii_base_compare. intros a b Hab Hba.
  rewrite String.compare_antisym, Hba in Hab. discriminate.
Defined.

(** ** KeyboardNavigator *)

(** The range of the claim: [-1 ≤ hoverIdx ≤ filtered.length - 1]. *)
Definition hover_in_range (st : State) : Prop :=
  -1 ≤ hoverIdx st ≤ Z.of_nat (length (filtered st)) - 1.

(** The range the handlers keep: the upper bound is never below 0. *)
Definition hover_bounded (st : State) : Prop :=
  -1 ≤ hoverIdx st ≤ Z.max 0 (Z.of_nat (length (filtered st)) - 1).

(** The events raised by the user: every event but a re-render by the host
    and the settling of a fetch. *)
Definition user_event (e : Event) : bool :=
  match e with
  | Render _ _ _ | Settle _ _ => false
  | _ => true
  end.

(** ** OptionSourceResolver and the staleness flag *)

(** The state [load] writes: the options, the loading flag and the error. *)
Definition view (st : State) : list string * bool * option string :=
  (effectiveOptions st, loading st, loadError st).

(** An event that leaves the dependencies of the fetch effect as they are:
    anything but a re-render that changes [dataUrl], [label] or [values]. *)
Definition quiet (st : State) (e : Event) : bool :=
  match e with
  | Render p' fv _ => negb (fetch_deps_changed (props st) p' fv)
  | _ => true
  end.

(** No fetch is uncancelled and no cleanup is pending: the situation in
    which the fetch effect runs. *)
Definition idle (st : State) : Prop :=
  (∀ i f, fetches st !! i = Some f → cancelled f = true) ∧ cleanup st = None.

(** The options are those of the explicit or the static source, when one of
    them is the effective one. *)
Definition synced (p : Props) (st : State) : Prop :=
  (∀ v vs, values p = Some (v :: vs) → effectiveOptions st = v :: vs)
  ∧ (values_given p = false → no_dataUrl p = true →
     effectiveOptions st = options p).

(** The remote source is selected and its fetch is in flight. *)
Definition awaiting (st : State) : bool :=
  negb (values_given (props st)) && negb (no_dataUrl (props st)) && loading st.

(** Explicit values dropped by the host while an endpoint is configured. *)
Definition valued_props : Props :=
  {| values := Some ["Energy"; "Utilities"]; options := ["IBM"];
     selected := []; onChange := Some 7%nat; label := "Tickers";
     maxPanelHeight := 280; multiSelect := true;
     dataUrl := Some "http://localhost:7071/api/GetSymbols" |}.

Section Invariant.
Context `{Collator}.

(** Every state reached along [es] after [st] is awaiting its fetch. *)
Fixpoint awaiting_along (st : State) (es : list Event) : Prop :=
  match es with
  | [] => True
  | e :: es' =>
      awaiting (step st e).1 = true ∧ awaiting_along (step st e).1 es'
  end.

(** [a] does not sort after [b]. *)
Definition collated (a b : string) : Prop := localeCompare a b ≠ Gt.

(** A sequence of events within one configuration epoch. *)
Fixpoint same_epoch (st : State) (es : list Event) : Prop :=
  match es with
  | [] => True
  | e :: es' => quiet st e = true ∧ same_epoch (step st e).1 es'
  end.

(** Where the current fetch stands: in flight with the loading state set, or
    ended with its result committed. *)
Definition remote_phase (st : State) (f : Fetch) : Prop :=
  match settled f with
  | None => loading st = true ∧ loadError st = None
  | Some o =>
      loading st = false
      ∧ match load_result (label (props st)) o with
        | Ok u => effectiveOptions st = u ∧ loadError st = None
        | Throw m => effectiveOptions st = [] ∧ loadError st = Some (error_text m)
        end
  end.

(** The invariant of the two effects. *)
Record Inv (st : State) : Prop := {
  inv_unique : ∀ i f,
    fetches st !! i = Some f → cancelled f = false → cleanup st = Some i;
  inv_values : ∀ v vs,
    values (props st) = Some (v :: vs) →
    effectiveOptions st = v :: vs ∧ cleanup st = None;
  inv_static :
    values_given (props st) = false → no_dataUrl (props st) = true →
    effectiveOptions st = options (props st) ∧ cleanup st = None;
  inv_remote :
    values_given (props st) = false → no_dataUrl (props st) = false →
    ∃ i f u, cleanup st = Some i ∧ fetches st !! i = Some f
      ∧ cancelled f = false ∧ dataUrl (props st) = Some u
      ∧ f_url f = u ∧ f_label f = label (props st) ∧ remote_phase st f
}.

End Invariant.

(** * The rest of the component and its hosts *)

(** ** PanelRenderer: the summary text of the toggle button *)

(** [summary], lines 330-339 of the component. *)
Definition summary (st : State) : string :=
  let sel := selected (props st) in
  if loading st && (length (effectiveOptions st) =? 0)%nat
  then "Loading " +:+ label (props st) +:+ "…"
  else if (length sel =? 0)%nat then "Select " +:+ label (props st)
  else if (length sel =? 1)%nat then default "" (sel !! 0%nat)
  else
    let first := default "" (sel !! 0%nat) in
    let others := (length sel - 1)%nat in
    let suffix := if (others =? 1)%nat then "other" else "others" in
    first +:+ " + " +:+ pretty others +:+ " " +:+ suffix.

(** ** The host: [FiltersPanel] and [App] *)

(** [handleMarkerClick] of [FilterChartPanel] in [App.js]: the value it
    gives to [onFiltersChange] as [selectedSectors]. *)
Definition handleMarkerClick (selectedSectors : list string) (siteName : string)
  : list string :=
  if JsArray.includes selectedSectors siteName
  then filter (λ n, n ≠ siteName) selectedSectors
  else selectedSectors ++ [siteName].

(** The props of the next render when [handleSectorsChange] (or
    [handleIndustryChange]) of [FiltersPanel] has stored [updated]: only
    [selected] differs. *)
Definition with_selected (updated : list string) (p : Props) : Props :=
  {| values := values p; options := options p; selected := updated;
     onChange := onChange p; label := label p;
     maxPanelHeight := maxPanelHeight p; multiSelect := multiSelect p;
     dataUrl := dataUrl p |}.

(** The host's answer to the calls of one event: the last argument given to
    [onChange] comes back as [selected], the memoized [values] array being
    the same object as before. *)
Definition host_echo (calls : list HostCall) (st : State) : State :=
  match last calls with
  | Some (Call _ updated) =>
      rerender (with_selected updated (props st)) false false st
  | None => st
  end.

(** [every((v, i) => v === selectedIndustries[i])] behind the length test,
    in the effect of [FiltersPanel] that follows the parent's prop. *)
Definition sameOrder (prev selectedIndustries : list string) : bool :=
  (length prev =? length selectedIndustries)%nat
  && forallb (λ iv, bool_decide (selectedIndustries !! iv.1 = Some iv.2))
             (imap pair prev).

(** The updater given to [setFilters] in that effect, on the
    [selectedIndustries] field. *)
Definition sync_selectedIndustries (prev selectedIndustries : list string)
  : list string :=
  if sameOrder prev selectedIndustries then prev else selectedIndustries.

(** [row && row.Sector]: a falsy row is the value itself. *)
Definition field_of_row (field : string) (row : json) : Result jsval :=
  if Js.truthy row then Js.prop row field else Ok (Some row).

(** The body of the [forEach] callback of [sectorValues] and
    [industryValues], on the [Set] built so far. *)
Definition add_field (field : string) (set : list string) (row : json)
  : Result (list string) :=
  v ←! field_of_row field row;
  match v with
  | None | Some JNull => Ok set
  | Some w =>
      s ←! Js.String_ w;
      if JsString.truthy (JsString.trim s)
      then Ok (JsArray.Set_add set (JsString.trim s))
      else Ok set
  end.

(** [a.forEach(f)] threading the [Set], for an [f] that may throw. *)
Fixpoint foldM {A B} (f : B → A → Result B) (b : B) (l : list A) : Result B :=
  match l with
  | [] => Ok b
  | x :: t => b' ←! f b x; foldM f b' t
  end.

Section FiltersPanel.
Context `{Collator}.

(** The two [useMemo] bodies of [FiltersPanel], which differ in the column
    alone. *)
Definition domainValues (field : string) (dataRows : list json)
  : Result (list string) :=
  if (length dataRows =? 0)%nat then Ok []
  else set ←! foldM (add_field field) [] dataRows;
       Ok (Array_sort localeCompare set).

Definition sectorValues (dataRows : list json) : Result (list string) :=
  domainValues "Sector" dataRows.

Definition industryValues (dataRows : list json) : Result (list string) :=
  domainValues "Industry" dataRows.

(** One user event followed by the host's re-render. *)
Definition controlled_step (st : State) (e : Event) : State :=
  let '(st1, calls) := step st e in host_echo calls st1.

Definition controlled_run (st : State) (es : list Event) : State :=
  foldl controlled_step st es.

End FiltersPanel.

(** ** [DataProvider] of [DataContext.js] *)

Module DataContext.

(** How the request for the CSV ends: [fetch] rejects, or resolves with a
    response whose [text()] gives the body or rejects. *)
Inductive CsvOutcome :=
| CsvRejected (message : string)
| CsvResponse (status : Z) (body : Result string).

(** A run of the effect: its [cancelled] variable and whether [loadCsv] has
    run to its end. *)
Record Load := { l_cancelled : bool; l_done : bool }.

Record DataState := {
  csvUrl : string;
  rows : list json;
  d_loading : bool;
  d_error : option string;            (* the message of the error stored *)
  loads : list Load;
  d_cleanup : option nat
}.

(** Mounting: the initial state of the three cells, and the effect, which
    starts [loadCsv] and sets no state. *)
Definition d_mount (url : string) : DataState :=
  {| csvUrl := url; rows := []; d_loading := true; d_error := None;
     loads := [{| l_cancelled := false; l_done := false |}];
     d_cleanup := Some 0%nat |}.

Definition d_run_cleanup (ds : DataState) : DataState :=
  match d_cleanup ds with
  | Some id =>
      {| csvUrl := csvUrl ds; rows := rows ds; d_loading := d_loading ds;
         d_error := d_error ds;
         loads := alter (λ l, {| l_cancelled := true; l_done := l_done l |})
                        id (loads ds);
         d_cleanup := None |}
  | None => ds
  end.

(** A render with [csvUrl = url]: the effect depends on [csvUrl] alone. *)
Definition d_rerender (url : string) (ds : DataState) : DataState :=
  if bool_decide (url = csvUrl ds) then ds
  else
    let ds1 := d_run_cleanup ds in
    {| csvUrl := url; rows := rows ds1; d_loading := d_loading ds1;
       d_error := d_error ds1;
       loads := loads ds1 ++ [{| l_cancelled := false; l_done := false |}];
       d_cleanup := Some (length (loads ds1)) |}.

Section Provider.
(** [Papa.parse(text, ..).data]: the parser is a library outside the
    repository. *)
Variable parse : string → list json.

(** The value [loadCsv] reaches [setRows] with, or the error it catches. *)
Definition csv_result (o : CsvOutcome) : Result (list json) :=
  match o with
  | CsvRejected m => Throw m
  | CsvResponse status body =>
      if ok status then text ←! body; Ok (parse text)
      else Throw ("HTTP " +:+ pretty status)
  end.

Definition d_commit (l : Load) (o : CsvOutcome) (ds : DataState) : DataState :=
  if l_cancelled l then ds
  else
    match csv_result o with
    | Ok data =>
        {| csvUrl := csvUrl ds; rows := data; d_loading := false;
           d_error := d_error ds; loads := loads ds; d_cleanup := d_cleanup ds |}
    | Throw m =>
        {| csvUrl := csvUrl ds; rows := rows ds; d_loading := false;
           d_error := Some m; loads := loads ds; d_cleanup := d_cleanup ds |}
    end.

Definition d_settle (id : nat) (o : CsvOutcome) (ds : DataState) : DataState :=
  match loads ds !! id with
  | Some l =>
      if l_done l then ds
      else
        d_commit l o
          {| csvUrl := csvUrl ds; rows := rows ds; d_loading := d_loading ds;
             d_error := d_error ds;
             loads := <[id := {| l_cancelled := l_cancelled l; l_done := true |}]>
                        (loads ds);
             d_cleanup := d_cleanup ds |}
  | None => ds
  end.

Inductive DataEvent :=
| SetUrl (url : string)
| CsvSettle (id : nat) (o : CsvOutcome)
| Unmount.

Definition d_step (ds : DataState) (e : DataEvent) : DataState :=
  match e with
  | SetUrl url => d_rerender url ds
  | CsvSettle id o => d_settle id o ds
  | Unmount => d_run_cleanup ds
  end.

Definition d_after (ds : DataState) (es : list DataEvent) : DataState :=
  foldl d_step ds es.

(** The guard of the effect of [FiltersPanel] that calls [onDataLoaded]
    ([dataRows] is always an array). *)
Definition data_ready (ds : DataState) : bool :=
  negb (d_loading ds) && negb (bool_decide (is_Some (d_error ds))).

End Provider.

End DataContext.

(** ** Definitions used in the further statements *)

(** Every page of the events has the toggle button mounted. *)
Definition anchored (e : Event) : bool :=
  match e with
  | KeyDown _ pg | ToggleClick pg | Reposition pg =>
      bool_decide (is_Some (toggleRef pg))
  | _ => true
  end.

(** The panel style is the placement computed for some page. *)
Definition placed (st : State) : Prop :=
  ∃ pg, computePlacement (maxPanelHeight (props st)) pg = Some (panelStyle st).

(** * Properties *)

(** ** Sets in insertion order *)

Section SetFacts.
Import JsArray.

Lemma includes_true a x : includes a x = true ↔ x ∈ a.
Proof. unfold includes. apply bool_decide_eq_true. Qed.

Lemma includes_false a x : includes a x = false ↔ x ∉ a.
Proof. unfold includes. apply bool_decide_eq_false. Qed.

Lemma foldl_Set_add_gained acc l :
  foldl Set_add acc l = acc ++ gained acc l.
Proof.
  revert acc. induction l as [|x t IH]; intros acc; simpl.
  - by rewrite app_nil_r.
  - unfold Set_add at 2. destruct (includes acc x); [apply IH|].
    rewrite IH, <- app_assoc. done.
Qed.

Lemma Array_from_Set_gained l : Array_from_Set l = gained [] l.
Proof. unfold Array_from_Set. by rewrite foldl_Set_add_gained. Qed.

Lemma elem_of_gained x seen l : x ∈ gained seen l ↔ x ∈ l ∧ x ∉ seen.
Proof.
  revert seen. induction l as [|y t IH]; intros seen; simpl.
  - rewrite elem_of_nil. set_solver.
  - destruct (includes seen y) eqn:E.
    + apply includes_true in E. rewrite IH. set_solver.
    + apply includes_false in E. rewrite elem_of_cons, IH.
      destruct (decide (x = y)) as [->|Hne]; set_solver.
Qed.

Lemma NoDup_gained seen l : NoDup (gained seen l).
Proof.
  revert seen. induction l as [|y t IH]; intros seen; simpl.
  - constructor.
  - destruct (includes seen y); [apply IH|].
    constructor; [|apply IH]. rewrite elem_of_gained. set_solver.
Qed.

Lemma gained_sublist seen l : sublist (gained seen l) l.
Proof.
  revert seen. induction l as [|y t IH]; intros seen; simpl.
  - constructor.
  - destruct (includes seen y).
    + by apply sublist_cons.
    + by apply sublist_skip.
Qed.

(** Only membership in [seen] matters. *)
Lemma gained_filter seen l :
  gained seen l = filter (λ x, x ∉ seen) (gained [] l).
Proof.
  revert seen. induction l as [|y t IH]; intros seen; simpl; [done|].
  destruct (includes seen y) eqn:E.
  - apply includes_true in E.
    rewrite filter_cons_False by (intros Hn; by apply Hn).
    rewrite (IH seen), (IH [y]), list_filter_filter.
    apply list_filter_iff. intros z. set_solver.
  - apply includes_false in E.
    rewrite filter_cons_True by done. f_equal.
    rewrite (IH (seen ++ [y])), (IH [y]), list_filter_filter.
    apply list_filter_iff. intros z. set_solver.
Qed.

Lemma gained_fresh seen l :
  NoDup l → (∀ x, x ∈ l → x ∉ seen) → gained seen l = l.
Proof.
  intros Hl. revert seen.
  induction Hl as [|y t Hy Ht IH]; intros seen Hs; simpl; [done|].
  destruct (includes seen y) eqn:E.
  - apply includes_true in E. exfalso. apply (Hs y); [left|done].
  - f_equal. apply IH. intros x Hx.
    rewrite elem_of_app, list_elem_of_singleton.
    intros [Hin | ->]; [|done]. apply (Hs x); [by right|done].
Qed.

Lemma gained_NoDup_id l : NoDup l → gained [] l = l.
Proof. intros Hl. apply gained_fresh; [done|]. intros x _. apply not_elem_of_nil. Qed.

Lemma Array_from_Set_app a b :
  Array_from_Set (a ++ b) = Array_from_Set a ++ gained (Array_from_Set a) b.
Proof.
  unfold Array_from_Set. rewrite foldl_app. apply foldl_Set_add_gained.
Qed.

Lemma NoDup_Array_from_Set l : NoDup (Array_from_Set l).
Proof. rewrite Array_from_Set_gained. apply NoDup_gained. Qed.

Lemma elem_of_Array_from_Set x l : x ∈ Array_from_Set l ↔ x ∈ l.
Proof.
  rewrite Array_from_Set_gained, elem_of_gained. set_solver.
Qed.

End SetFacts.

(** ** SelectionModel *)

Section Selection.
Import JsArray ArrayStore.

Lemma filter_ne_absent (opt : string) (l : list string) :
  opt ∉ l → filter (λ s, s ≠ opt) l = l.
Proof.
  induction l as [|x t IH]; intros Hn; [done|].
  apply not_elem_of_cons in Hn as [Hx Ht].
  rewrite filter_cons_True by congruence. f_equal. by apply IH.
Qed.

Lemma filter_ne_middle (opt : string) (l1 l2 : list string) :
  opt ∉ l1 → opt ∉ l2 →
  filter (λ s, s ≠ opt) (l1 ++ opt :: l2) = l1 ++ l2.
Proof.
  intros H1 H2.
  rewrite filter_app, filter_cons_False by (intros Hn; by apply Hn).
  by rewrite !filter_ne_absent.
Qed.

Lemma alloc_lookup_new (h : store) a : (alloc h a).1 !! (alloc h a).2 = Some a.
Proof.
  unfold alloc; cbn [fst snd]. rewrite lookup_app_r by lia.
  by rewrite Nat.sub_diag.
Qed.

Lemma alloc_lookup_old (h : store) a l b :
  h !! l = Some b → (alloc h a).1 !! l = Some b.
Proof. intros Hl. unfold alloc; cbn [fst]. by apply lookup_app_l_Some. Qed.

Lemma alloc_fresh (h : store) a l b : h !! l = Some b → (alloc h a).2 ≠ l.
Proof.
  intros Hl. apply lookup_lt_Some in Hl. unfold alloc; cbn [snd]. lia.
Qed.

(** The reference-level [toggleOption] hands to the host a new array that
    holds [toggleOption_next], and leaves every array of the store as it
    was. *)
Lemma toggleOption_ref_spec p (h : store) (sel : loc) opt :
  h !! sel = Some (selected p) →
  ∃ h' l', toggleOption_ref (multiSelect p) h sel opt = Some (h', l')
    ∧ h' !! l' = Some (toggleOption_next p opt)
    ∧ l' ≠ sel
    ∧ ∀ l a, h !! l = Some a → h' !! l = Some a.
Proof.
  intros Hsel. unfold toggleOption_ref, toggleOption_next.
  rewrite Hsel; simpl.
  assert (A : ∀ a, ∃ h' l', Some (alloc h a) = Some (h', l')
    ∧ h' !! l' = Some a ∧ l' ≠ sel
    ∧ ∀ l b, h !! l = Some b → h' !! l = Some b).
  { intros a. exists (alloc h a).1, (alloc h a).2. split; [done|].
    split; [apply alloc_lookup_new|]. split; [by eapply alloc_fresh|].
    intros l b. apply alloc_lookup_old. }
  destruct (multiSelect p).
  - destruct (includes (selected p) opt).
    + unfold Array_filter_ne. rewrite Hsel; simpl. apply A.
    + unfold Array_spread_push. rewrite Hsel; simpl. apply A.
  - unfold Array_literal.
    destruct (selected p) as [|s0 [|s1 t]]; try apply A.
    destruct (bool_decide (s0 = opt)); apply A.
Qed.

(** C1.  In multi-select mode [toggleOption(opt)] calls [onChange] once,
    with [selected ++ [opt]] when [opt] is not selected and with [selected]
    without [opt] (the other elements in their order) when it is; the
    argument is a newly allocated array and the array [selected] refers to
    is unchanged. *)
Theorem toggleOption_multi p f opt (h : store) (sel : loc) :
  multiSelect p = true →
  onChange p = Some f →
  h !! sel = Some (selected p) →
  ∃ next h' l',
    toggleOption p opt = [Call f next]
    ∧ (opt ∉ selected p → next = selected p ++ [opt])
    ∧ (opt ∈ selected p →
         next = filter (λ s, s ≠ opt) (selected p)
         ∧ (opt ∉ next)
         ∧ sublist next (selected p)
         ∧ (∀ x, x ∈ next ↔ x ∈ selected p ∧ x ≠ opt)
         ∧ (∀ l1 l2, selected p = l1 ++ opt :: l2 → opt ∉ l1 → opt ∉ l2 →
              next = l1 ++ l2))
    ∧ toggleOption_ref true h sel opt = Some (h', l')
    ∧ h' !! l' = Some next
    ∧ l' ≠ sel
    ∧ h' !! sel = Some (selected p)
    ∧ (∀ l a, h !! l = Some a → h' !! l = Some a).
Proof.
  intros Hm Hf Hsel.
  destruct (toggleOption_ref_spec p h sel opt Hsel) as (h' & l' & Hr & Hn & Hl & Hold).
  rewrite Hm in Hr.
  exists (toggleOption_next p opt), h', l'.
  split; [unfold toggleOption, call_onChange; by rewrite Hf|].
  unfold toggleOption_next in *. rewrite Hm in *.
  split; [|split; [|repeat split; auto]].
  - intros Hnot. apply includes_false in Hnot. by rewrite Hnot.
  - intros Hin. apply includes_true in Hin. rewrite Hin.
    split; [done|]. split; [|split; [|split]].
    + rewrite list_elem_of_filter. intros [Hne _]. by apply Hne.
    + apply sublist_filter.
    + intros x. rewrite list_elem_of_filter. tauto.
    + intros l1 l2 -> H1 H2. by apply filter_ne_middle.
Qed.

Lemma toggleOption_multi_witness :
  ∃ next h' l',
    toggleOption demo_props "MSFT" = [Call 7%nat next]
    ∧ ("MSFT" ∉ selected demo_props → next = selected demo_props ++ ["MSFT"])
    ∧ ("MSFT" ∈ selected demo_props →
         next = filter (λ s, s ≠ "MSFT") (selected demo_props)
         ∧ ("MSFT" ∉ next)
         ∧ sublist next (selected demo_props)
         ∧ (∀ x, x ∈ next ↔ x ∈ selected demo_props ∧ x ≠ "MSFT")
         ∧ (∀ l1 l2, selected demo_props = l1 ++ "MSFT" :: l2 →
              "MSFT" ∉ l1 → "MSFT" ∉ l2 → next = l1 ++ l2))
    ∧ toggleOption_ref true [["AAPL"; "MSFT"; "GOOG"]] 0 "MSFT" = Some (h', l')
    ∧ h' !! l' = Some next
    ∧ l' ≠ 0%nat
    ∧ h' !! 0%nat = Some (selected demo_props)
    ∧ (∀ l a, [["AAPL"; "MSFT"; "GOOG"]] !! l = Some a → h' !! l = Some a).
Proof.
  apply (toggleOption_multi demo_props 7%nat "MSFT"
           [["AAPL"; "MSFT"; "GOOG"]] 0%nat); reflexivity.
Defined.

(** C2.  [selectAll] proposes the union of [selected] and [filtered]
    without duplicates; when [selected] holds each option once, as a
    Selection does, its elements keep their places and the options gained
    from [filtered] follow them in the order of [filtered]. *)
Theorem selectAll_union p filt :
  let next := selectAll_next p filt in
  NoDup next
  ∧ (∀ x, x ∈ next ↔ x ∈ selected p ∨ x ∈ filt)
  ∧ (∀ f, onChange p = Some f → selectAll p filt = [Call f next])
  ∧ (NoDup (selected p) →
       ∃ new, next = selected p ++ new
         ∧ new = filter (λ o, o ∉ selected p) (Array_from_Set filt)
         ∧ sublist new filt
         ∧ ∀ x, x ∈ new ↔ x ∈ filt ∧ x ∉ selected p).
Proof.
  unfold selectAll_next; simpl.
  split; [apply NoDup_Array_from_Set|].
  split; [intros x; by rewrite elem_of_Array_from_Set, elem_of_app|].
  split; [intros f Hf; unfold selectAll, call_onChange; by rewrite Hf|].
  intros Hnd. exists (gained (selected p) filt).
  rewrite Array_from_Set_app, !Array_from_Set_gained, (gained_NoDup_id _ Hnd).
  split; [done|]. split; [apply gained_filter|].
  split; [apply gained_sublist|]. intros x. apply elem_of_gained.
Qed.

Lemma selectAll_union_witness :
  let next := selectAll_next demo_props ["MSFT"; "IBM"; "IBM"] in
  next = ["AAPL"; "MSFT"; "GOOG"; "IBM"]
  ∧ ∃ new, next = selected demo_props ++ new
      ∧ new = filter (λ o, o ∉ selected demo_props)
                (Array_from_Set ["MSFT"; "IBM"; "IBM"])
      ∧ sublist new ["MSFT"; "IBM"; "IBM"]
      ∧ ∀ x, x ∈ new ↔ x ∈ ["MSFT"; "IBM"; "IBM"] ∧ x ∉ selected demo_props.
Proof.
  split; [reflexivity|].
  apply (selectAll_union demo_props ["MSFT"; "IBM"; "IBM"]).
  apply (bool_decide_unpack (NoDup (selected demo_props))).
  vm_compute. exact I.
Defined.

(** What the component proposes is a Selection again: each option once. *)
Lemma proposed_selection_NoDup p opt filt :
  NoDup (selected p) →
  NoDup (toggleOption_next p opt) ∧ NoDup (selectAll_next p filt).
Proof.
  intros Hnd. split; [|apply NoDup_Array_from_Set].
  unfold toggleOption_next. destruct (multiSelect p).
  - destruct (includes (selected p) opt) eqn:E.
    + by apply NoDup_filter.
    + apply includes_false in E. apply NoDup_app. split; [done|].
      split; [|apply NoDup_singleton].
      intros x Hx ->%list_elem_of_singleton. done.
  - destruct (selected p) as [|s0 [|s1 t]]; try apply NoDup_singleton.
    destruct (bool_decide (s0 = opt)); [constructor|apply NoDup_singleton].
Qed.

Lemma toggleOption_single_length p opt :
  multiSelect p = false → (length (toggleOption_next p opt) ≤ 1)%nat.
Proof.
  intros Hm. unfold toggleOption_next. rewrite Hm.
  destruct (selected p) as [|s0 [|s1 t]]; simpl; try lia.
  destruct (bool_decide (s0 = opt)); simpl; lia.
Qed.

(** C10.  [selectAll] does not read [multiSelect]: in either mode it calls
    [onChange] with the union of [selected] and [filtered], so in
    single-select mode it can propose more than one option, while
    [toggleOption] in single-select mode never proposes more than one. *)
Theorem selectAll_ignores_multiSelect :
  (∀ p filt, selectAll_next p filt = Array_from_Set (selected p ++ filt))
  ∧ (∀ p p' filt, selected p = selected p' → onChange p = onChange p' →
       selectAll p filt = selectAll p' filt)
  ∧ (∀ p filt x, x ∈ selectAll_next p filt ↔ x ∈ selected p ∨ x ∈ filt)
  ∧ (∃ p filt f next, multiSelect p = false
       ∧ selectAll p filt = [Call f next] ∧ (1 < length next)%nat)
  ∧ (∀ p opt f, multiSelect p = false → onChange p = Some f →
       ∃ next, toggleOption p opt = [Call f next] ∧ (length next ≤ 1)%nat).
Proof.
  split; [done|].
  split.
  { intros p p' filt Hs Hc. unfold selectAll, call_onChange, selectAll_next.
    by rewrite Hs, Hc. }
  split.
  { intros p filt x. unfold selectAll_next.
    by rewrite elem_of_Array_from_Set, elem_of_app. }
  split.
  { exists {| values := None; options := ["AAPL"; "MSFT"]; selected := ["AAPL"];
              onChange := Some 7%nat; label := "Tickers";
              maxPanelHeight := 280; multiSelect := false; dataUrl := None |},
           ["AAPL"; "MSFT"], 7%nat, ["AAPL"; "MSFT"].
    split; [done|]. split; [reflexivity|simpl; lia]. }
  intros p opt f Hm Hf. exists (toggleOption_next p opt).
  split; [unfold toggleOption, call_onChange; by rewrite Hf|].
  by apply toggleOption_single_length.
Qed.

End Selection.

(** ** SearchFilter *)

Section SearchFilter.
Import JsString.

Lemma append_cons c (s t : string) : String c s +:+ t = String c (s +:+ t).
Proof. reflexivity. Qed.

Lemma prefix_spec q s : String.prefix q s = true ↔ ∃ b, s = q +:+ b.
Proof.
  revert s. induction q as [|c q IH]; intros s.
  - destruct s; simpl; split; eauto.
  - destruct s as [|d s]; simpl.
    + split; [done|]. intros [b Hb]. rewrite append_cons in Hb. discriminate.
    + destruct (ascii_dec c d) as [->|Hne].
      * rewrite IH. split; intros [b Hb]; exists b;
          rewrite append_cons in *; congruence.
      * split; [done|]. intros [b Hb]. rewrite append_cons in Hb. congruence.
Qed.

Lemma includes_nil q : includes "" q = String.prefix q "" || false.
Proof. reflexivity. Qed.

Lemma includes_cons c s q :
  includes (String c s) q = String.prefix q (String c s) || includes s q.
Proof. reflexivity. Qed.

(** [includes] decides the occurrence of [q] as a substring of [s]. *)
Lemma includes_spec s q :
  includes s q = true ↔ ∃ a b, s = a +:+ q +:+ b.
Proof.
  induction s as [|c s IH].
  - rewrite includes_nil, orb_false_r, prefix_spec. split.
    + intros [b Hb]. by exists "", b.
    + intros ([|? a] & b & Hab); [by exists b|].
      rewrite append_cons in Hab. discriminate.
  - rewrite includes_cons, orb_true_iff, prefix_spec, IH. split.
    + intros [[b Hb]|(a & b & Hab)].
      * by exists "", b.
      * exists (String c a), b. rewrite append_cons. by rewrite Hab.
    + intros ([|d a] & b & Hab).
      * left. by exists b.
      * right. exists a, b. rewrite append_cons in Hab. congruence.
Qed.

Lemma includes_empty s : includes s "" = true.
Proof. apply includes_spec. by exists "", s. Qed.

Lemma truthy_false q : truthy q = false ↔ q = "".
Proof. destruct q; simpl; split; congruence. Qed.

(** C5 (amended).  [filtered] is a function of the effective options and
    the query alone: it keeps, in their order, the options whose lowercase
    form contains the query trimmed and lowercased; a query that trims to
    the empty string gives the whole list. *)
Theorem filtered_of_spec opts query :
  let q := toLowerCase (trim query) in
  filtered_of opts query
    = (if bool_decide (q = "") then opts
       else filter (λ o, includes (toLowerCase o) q = true) opts)
  ∧ filtered_of opts query
    = filter (λ o, includes (toLowerCase o) q = true) opts
  ∧ sublist (filtered_of opts query) opts
  ∧ (∀ o, o ∈ filtered_of opts query ↔
          o ∈ opts ∧ ∃ a b, toLowerCase o = a +:+ q +:+ b)
  ∧ filtered_of opts "" = opts.
Proof.
  simpl.
  assert (E : filtered_of opts query
    = filter (λ o, includes (toLowerCase o) (toLowerCase (trim query)) = true) opts).
  { unfold filtered_of. simpl.
    destruct (truthy (toLowerCase (trim query))) eqn:Hq; simpl; [done|].
    apply truthy_false in Hq. rewrite Hq.
    induction opts as [|o t IH]; [done|].
    rewrite filter_cons_True by apply includes_empty. by f_equal. }
  split.
  { unfold filtered_of. simpl. case_bool_decide as Hq.
    - by rewrite Hq.
    - destruct (truthy (toLowerCase (trim query))) eqn:Ht; [done|].
      by apply truthy_false in Ht. }
  split; [exact E|]. split; [rewrite E; apply sublist_filter|].
  split; [|done].
  intros o. rewrite E, list_elem_of_filter, includes_spec. tauto.
Qed.

(** C5 as stated fails: a query with a trailing space still matches,
    because the query is trimmed before it is compared. *)
Lemma filtered_of_trims_query :
  filtered_of ["AAPL"; "APPLE"; "MSFT"] "app " = ["APPLE"]
  ∧ filtered_untrimmed ["AAPL"; "APPLE"; "MSFT"] "app " = []
  ∧ ¬ (∀ o, o ∈ filtered_of ["AAPL"; "APPLE"; "MSFT"] "app " ↔
            o ∈ ["AAPL"; "APPLE"; "MSFT"]
            ∧ includes (toLowerCase o) (toLowerCase "app ") = true).
Proof.
  split; [reflexivity|]. split; [reflexivity|].
  intros Hc. destruct (Hc "APPLE") as [Hin _].
  assert (Hm : "APPLE" ∈ filtered_of ["AAPL"; "APPLE"; "MSFT"] "app ")
    by (apply (bool_decide_unpack _); vm_compute; exact I).
  apply Hin in Hm as [_ Hm]. vm_compute in Hm. discriminate.
Qed.

End SearchFilter.


(** ** PlacementEngine *)

Section Doubles.
Import SpecFloat.

(** *** The order of the doubles *)

Lemma SFcompare_refl f : f ≠ S754_nan → SFcompare f f = Some Eq.
Proof.
  destruct f as [[]|[]| |[] m e]; try done; intros _; simpl;
    by rewrite Z.compare_refl, Pos.compare_cont_refl.
Qed.

Lemma is_nan_spec x : is_nan x = true ↔ Prim2SF x = S754_nan.
Proof.
  unfold is_nan. rewrite FloatAxioms.eqb_spec. unfold SFeqb.
  destruct (Prim2SF x) as [[]|[]| |[] m e] eqn:E; simpl;
    try (split; [discriminate|done]); try (split; done).
  all: rewrite Z.compare_refl, Pos.compare_cont_refl; simpl; split; discriminate.
Qed.

Lemma is_nan_false x : is_nan x = false ↔ Prim2SF x ≠ S754_nan.
Proof. rewrite <- is_nan_spec. destruct (is_nan x); split; congruence. Qed.

Lemma leb_refl x : is_nan x = false → (x <=? x)%float = true.
Proof.
  intros Hx. rewrite FloatAxioms.leb_spec. unfold SFleb.
  rewrite SFcompare_refl; [done|]. by apply is_nan_false.
Qed.

Lemma SFcompare_antisym f g :
  SFcompare g f = option_map CompOpp (SFcompare f g).
Proof.
  destruct f as [[]|[]| |[] m e], g as [[]|[]| |[] m' e']; try done; simpl;
    assert (Em : Pos.compare_cont Eq m' m = CompOpp (Pos.compare_cont Eq m m'))
      by (by rewrite Pos.compare_cont_antisym);
    rewrite (Z.compare_antisym e e'), Em;
    destruct (e ?= e'); simpl; try done; by rewrite ?CompOpp_involutive.
Qed.

Lemma ltb_leb x y : (x <? y)%float = true → (x <=? y)%float = true.
Proof.
  rewrite FloatAxioms.ltb_spec, FloatAxioms.leb_spec. unfold SFltb, SFleb.
  by destruct (SFcompare _ _) as [[]|].
Qed.

Lemma not_ltb_leb x y :
  is_nan x = false → is_nan y = false →
  (y <? x)%float = false → (x <=? y)%float = true.
Proof.
  rewrite !is_nan_false, FloatAxioms.ltb_spec, FloatAxioms.leb_spec.
  unfold SFltb, SFleb.
  rewrite (SFcompare_antisym (Prim2SF x) (Prim2SF y)).
  intros Hx Hy.
  destruct (SFcompare (Prim2SF x) (Prim2SF y)) as [[]|] eqn:E; simpl; try done.
  exfalso.
  destruct (Prim2SF x) as [[]|[]| |[] m e], (Prim2SF y) as [[]|[]| |[] m' e'];
    done.
Qed.

Lemma SFleb_trans f g h :
  SFleb f g = true → SFleb g h = true → SFleb f h = true.
Proof.
  unfold SFleb.
  destruct f as [[]|[]| |[] m1 e1], g as [[]|[]| |[] m2 e2],
    h as [[]|[]| |[] m3 e3]; simpl; try done.
  all: change (Pos.compare_cont Eq) with Pos.compare.
  all: destruct (Z.compare_spec e1 e2), (Z.compare_spec e2 e3),
         (Z.compare_spec e1 e3); try lia; try done.
  all: destruct (Pos.compare_spec m1 m2), (Pos.compare_spec m2 m3),
         (Pos.compare_spec m1 m3); simpl; try lia; try done.
Qed.

Lemma leb_trans x y z :
  (x <=? y)%float = true → (y <=? z)%float = true → (x <=? z)%float = true.
Proof. rewrite !FloatAxioms.leb_spec. apply SFleb_trans. Qed.

Lemma leb_not_nan x y :
  (x <=? y)%float = true → is_nan x = false ∧ is_nan y = false.
Proof.
  rewrite FloatAxioms.leb_spec, !is_nan_false. unfold SFleb.
  destruct (Prim2SF x) as [[]|[]| |[] m e], (Prim2SF y) as [[]|[]| |[] m' e'];
    simpl; done.
Qed.

Lemma is_neg_zero_spec x : is_neg_zero x = true → Prim2SF x = S754_zero true.
Proof.
  unfold is_neg_zero. rewrite classify_spec. unfold SF64classify, SFclassify.
  destruct (Prim2SF x) as [[]|[]| |[] m e]; try done;
    by destruct (Z.pos (digits2_pos m) =? prec).
Qed.

Lemma is_pos_zero_spec x : is_pos_zero x = true → Prim2SF x = S754_zero false.
Proof.
  unfold is_pos_zero. rewrite classify_spec. unfold SF64classify, SFclassify.
  destruct (Prim2SF x) as [[]|[]| |[] m e]; try done;
    by destruct (Z.pos (digits2_pos m) =? prec).
Qed.

Lemma neg_zero_leb_pos_zero x y :
  is_neg_zero x = true → is_pos_zero y = true → (x <=? y)%float = true.
Proof.
  intros Hx Hy. rewrite FloatAxioms.leb_spec.
  by rewrite (is_neg_zero_spec x Hx), (is_pos_zero_spec y Hy).
Qed.

(** *** Subtraction of numbers *)

Lemma is_finite_spec x :
  is_finite x
  = match Prim2SF x with
    | S754_zero _ | S754_finite _ _ _ => true
    | _ => false
    end.
Proof.
  unfold is_finite, is_infinity.
  destruct (is_nan x) eqn:En.
  - apply is_nan_spec in En. by rewrite En.
  - apply is_nan_false in En. simpl.
    rewrite FloatAxioms.eqb_spec, abs_spec.
    replace (Prim2SF infinity) with (S754_infinity false) by reflexivity.
    unfold SFeqb. by destruct (Prim2SF x) as [[]|[]| |[] m e].
Qed.

Lemma is_finite_not_nan x : is_finite x = true → is_nan x = false.
Proof. unfold is_finite. by destruct (is_nan x). Qed.

Lemma shr_1_nonneg mrs : 0 ≤ shr_m mrs → 0 ≤ shr_m (shr_1 mrs).
Proof. destruct mrs as [[|[p|p|]|[p|p|]] r s]; simpl; lia. Qed.

Lemma iter_shr_1_nonneg p mrs :
  0 ≤ shr_m mrs → 0 ≤ shr_m (iter_pos shr_1 p mrs).
Proof.
  revert mrs. induction p as [p IH|p IH|]; intros mrs Hm; simpl.
  - apply IH, IH. by apply shr_1_nonneg.
  - by apply IH, IH.
  - by apply shr_1_nonneg.
Qed.

Lemma shr_fexp_nonneg m e l :
  0 ≤ m → 0 ≤ shr_m (shr_fexp prec emax m e l).1.
Proof.
  intros Hm. unfold shr_fexp, shr.
  assert (H0 : 0 ≤ shr_m (shr_record_of_loc m l)) by (by destruct l as [|[]]).
  destruct (_ - e); simpl; [done| |done]. by apply iter_shr_1_nonneg.
Qed.

Lemma round_nearest_even_nonneg m l : 0 ≤ m → 0 ≤ round_nearest_even m l.
Proof.
  intros Hm. destruct l as [|[]]; simpl; try lia. destruct (Z.even m); lia.
Qed.

(** Rounding a non-negative mantissa gives a zero, a finite number or an
    infinity. *)
Lemma binary_round_aux_not_nan sx m e l :
  0 ≤ m → binary_round_aux prec emax sx m e l ≠ S754_nan.
Proof.
  intros Hm. unfold binary_round_aux.
  pose proof (shr_fexp_nonneg m e l Hm) as H1.
  destruct (shr_fexp prec emax m e l) as [mrs' e']. simpl in H1.
  pose proof (shr_fexp_nonneg
    (round_nearest_even (shr_m mrs') (loc_of_shr_record mrs')) e' loc_Exact
    (round_nearest_even_nonneg _ _ H1)) as H2.
  destruct (shr_fexp prec emax _ e' loc_Exact) as [mrs'' e'']. simpl in H2.
  destruct (shr_m mrs''); [done| |lia]. by destruct (_ <=? _).
Qed.

Lemma binary_normalize_not_nan m e sz :
  binary_normalize prec emax m e sz ≠ S754_nan.
Proof.
  destruct m as [|p|p]; simpl; [done| |]; unfold binary_round;
    destruct (shl_align _ _ _); by apply binary_round_aux_not_nan.
Qed.

(** A difference of numbers is [NaN] only when both are infinite. *)
Lemma sub_not_nan x y :
  is_nan x = false → is_nan y = false →
  is_finite x = true ∨ is_finite y = true →
  is_nan (x - y) = false.
Proof.
  rewrite !is_nan_false, !is_finite_spec, sub_spec. unfold SF64sub, SFsub.
  intros Hx Hy Hf.
  destruct (Prim2SF x) as [[]|[]| |[] m e], (Prim2SF y) as [[]|[]| |[] m' e'];
    try done; try (by destruct Hf); apply binary_normalize_not_nan.
Qed.

(** *** [Math.min] and [Math.max] *)

Lemma Math_min_nan a b : is_nan (Math_min a b) = is_nan a || is_nan b.
Proof.
  unfold Math_min. destruct (is_nan a) eqn:Ea; [done|].
  destruct (is_nan b) eqn:Eb; [done|]. simpl.
  destruct (_ && _); [done|]. by destruct (b <? a)%float.
Qed.

Lemma Math_max_nan a b : is_nan (Math_max a b) = is_nan a || is_nan b.
Proof.
  unfold Math_max. destruct (is_nan a) eqn:Ea; [done|].
  destruct (is_nan b) eqn:Eb; [done|]. simpl.
  destruct (_ && _); [done|]. by destruct (a <? b)%float.
Qed.

Lemma Math_min_le a b :
  is_nan a = false → is_nan b = false →
  (Math_min a b <=? a)%float = true ∧ (Math_min a b <=? b)%float = true.
Proof.
  intros Ea Eb. unfold Math_min. rewrite Ea, Eb. simpl.
  destruct (is_neg_zero b && is_pos_zero a) eqn:Ez.
  - apply andb_true_iff in Ez as [Hb Ha].
    split; [by apply neg_zero_leb_pos_zero|by apply leb_refl].
  - destruct (b <? a)%float eqn:El.
    + split; [by apply ltb_leb|by apply leb_refl].
    + split; [by apply leb_refl|by apply not_ltb_leb].
Qed.

Lemma Math_max_ge a b :
  is_nan a = false → is_nan b = false →
  (a <=? Math_max a b)%float = true ∧ (b <=? Math_max a b)%float = true.
Proof.
  intros Ea Eb. unfold Math_max. rewrite Ea, Eb. simpl.
  destruct (is_pos_zero b && is_neg_zero a) eqn:Ez.
  - apply andb_true_iff in Ez as [Hb Ha].
    split; [by apply neg_zero_leb_pos_zero|by apply leb_refl].
  - destruct (a <? b)%float eqn:El.
    + split; [by apply ltb_leb|by apply leb_refl].
    + split; [by apply leb_refl|by apply not_ltb_leb].
Qed.


Lemma Math_max_or a b :
  is_nan a = false → is_nan b = false → Math_max a b = a ∨ Math_max a b = b.
Proof.
  intros Ea Eb. unfold Math_max. rewrite Ea, Eb. simpl.
  destruct (_ && _); [by right|]. destruct (a <? b)%float; auto.
Qed.

End Doubles.

Section Placement.
Open Scope float_scope.

Lemma measurable_spec mph pg r :
  measurable mph pg r = true →
  is_finite (innerWidth pg) = true ∧ is_nan (innerWidth pg) = false
  ∧ is_nan (innerHeight pg) = false ∧ is_nan (r_left r) = false
  ∧ is_nan (r_top r) = false ∧ is_nan (r_width r) = false
  ∧ is_nan mph = false.
Proof.
  unfold measurable. rewrite !andb_true_iff, !negb_true_iff.
  intros [[[[[Hw Hh] Hl] Ht] Hrw] Hm].
  auto 10 using is_finite_not_nan.
Qed.

(** The fields [computePlacement] sets. *)
Lemma computePlacement_fields mph pg r :
  toggleRef pg = Some r →
  ∃ s, computePlacement mph pg = Some s
    ∧ width s = Math_min (r_width r) (innerWidth pg - 2 * pad)
    ∧ left s = clamp (r_left r) pad (innerWidth pg - width s - pad)
    ∧ maxHeight s = Math_min mph (innerHeight pg - 2 * pad)
    ∧ top s = Math_min (r_top r) (innerHeight pg - pad).
Proof.
  intros Hr. unfold computePlacement. rewrite Hr. eexists.
  split; [reflexivity|]. by cbn [top left width maxHeight].
Qed.

(** No field is [NaN] when the measurements are numbers. *)
Lemma computePlacement_numbers mph pg r s :
  toggleRef pg = Some r → measurable mph pg r = true →
  computePlacement mph pg = Some s →
  is_nan (width s) = false
  ∧ is_nan (innerWidth pg - width s - pad) = false
  ∧ is_nan (left s) = false
  ∧ is_nan (innerHeight pg - 2 * pad) = false
  ∧ is_nan (maxHeight s) = false
  ∧ is_nan (innerHeight pg - pad) = false
  ∧ is_nan (top s) = false.
Proof.
  intros Hr Hm Hs.
  destruct (measurable_spec _ _ _ Hm) as (Fw & Nw & Nh & Nl & Nt & Nrw & Nm).
  destruct (computePlacement_fields mph pg r Hr) as (s' & Hs' & Ew & El & Emh & Et).
  assert (s' = s) as -> by congruence. clear Hs'.
  assert (N16 : is_nan (innerWidth pg - 2 * pad) = false)
    by (apply sub_not_nan; auto).
  assert (Nwd : is_nan (width s) = false)
    by (by rewrite Ew, Math_min_nan, Nrw, N16).
  assert (Nd : is_nan (innerWidth pg - width s) = false)
    by (apply sub_not_nan; auto).
  assert (Nhi : is_nan (innerWidth pg - width s - pad) = false)
    by (apply sub_not_nan; auto).
  assert (Nh16 : is_nan (innerHeight pg - 2 * pad) = false)
    by (apply sub_not_nan; auto).
  assert (Nh8 : is_nan (innerHeight pg - pad) = false)
    by (apply sub_not_nan; auto).
  repeat split; try done.
  - rewrite El. unfold clamp. by rewrite Math_max_nan, Math_min_nan, Nl, Nhi.
  - by rewrite Emh, Math_min_nan, Nm, Nh16.
  - by rewrite Et, Math_min_nan, Nt, Nh8.
Qed.

(** The bounds of the fields when the measurements are numbers. *)
Lemma computePlacement_bounds mph pg r s :
  toggleRef pg = Some r → measurable mph pg r = true →
  computePlacement mph pg = Some s →
  (pad <=? left s) = true
  ∧ (left s <=? Math_max pad (innerWidth pg - width s - pad)) = true
  ∧ (maxHeight s <=? mph) = true
  ∧ (maxHeight s <=? innerHeight pg - 2 * pad) = true
  ∧ (top s <=? r_top r) = true
  ∧ (top s <=? innerHeight pg - pad) = true.
Proof.
  intros Hr Hm Hs.
  destruct (measurable_spec _ _ _ Hm) as (Fw & Nw & Nh & Nl & Nt & Nrw & Nm).
  destruct (computePlacement_numbers mph pg r s Hr Hm Hs)
    as (Nwd & Nhi & Nle & Nh16 & Nmh & Nh8 & Ntop).
  destruct (computePlacement_fields mph pg r Hr) as (s' & Hs' & Ew & El & Emh & Et).
  assert (s' = s) as -> by congruence. clear Hs'.
  set (hi := innerWidth pg - width s - pad) in *.
  assert (Nmin : is_nan (Math_min (r_left r) hi) = false)
    by (by rewrite Math_min_nan, Nl, Nhi).
  assert (Np : is_nan pad = false) by reflexivity.
  destruct (Math_max_ge pad (Math_min (r_left r) hi) Np Nmin) as [Hlo _].
  destruct (Math_min_le (r_left r) hi Nl Nhi) as [_ Hmhi].
  destruct (Math_max_ge pad hi Np Nhi) as [Hp Hhi].
  destruct (Math_min_le mph (innerHeight pg - 2 * pad) Nm Nh16) as [Hm1 Hm2].
  destruct (Math_min_le (r_top r) (innerHeight pg - pad) Nt Nh8) as [Ht1 Ht2].
  rewrite El, Emh, Et. unfold clamp. repeat split; try done.
  destruct (Math_max_or pad (Math_min (r_left r) hi) Np Nmin) as [-> | ->];
    [done|]. by apply (leb_trans _ hi).
Qed.

(** C7 (amended).  With an anchor present, [computePlacement] sets the four
    fields by the stated formulas with [pad = 8], evaluated in double
    arithmetic.  When the measurements are numbers, [pad ≤ left],
    [left ≤ max(pad, innerWidth - width - pad)] and
    [maxHeight ≤ innerHeight - 2·pad] hold. *)
Theorem computePlacement_formulas mph pg r :
  toggleRef pg = Some r →
  ∃ s, computePlacement mph pg = Some s
    ∧ pad = 8
    ∧ width s = Math_min (r_width r) (innerWidth pg - 2 * pad)
    ∧ left s = clamp (r_left r) pad (innerWidth pg - width s - pad)
    ∧ maxHeight s = Math_min mph (innerHeight pg - 2 * pad)
    ∧ top s = Math_min (r_top r) (innerHeight pg - pad)
    ∧ (measurable mph pg r = true →
       (pad <=? left s) = true
       ∧ (left s <=? Math_max pad (innerWidth pg - width s - pad)) = true
       ∧ (maxHeight s <=? innerHeight pg - 2 * pad) = true).
Proof.
  intros Hr.
  destruct (computePlacement_fields mph pg r Hr) as (s & Hs & Ew & El & Emh & Et).
  exists s. split; [exact Hs|]. split; [reflexivity|].
  split; [exact Ew|]. split; [exact El|]. split; [exact Emh|].
  split; [exact Et|]. intros Hm.
  destruct (computePlacement_bounds mph pg r s Hr Hm Hs)
    as (H1 & H2 & _ & H3 & _).
  done.
Qed.

Lemma computePlacement_formulas_witness :
  ∃ s, computePlacement 280 low_anchor_page = Some s
    ∧ pad = 8
    ∧ width s = Math_min 200 (innerWidth low_anchor_page - 2 * pad)
    ∧ left s = clamp 700 pad (innerWidth low_anchor_page - width s - pad)
    ∧ maxHeight s = Math_min 280 (innerHeight low_anchor_page - 2 * pad)
    ∧ top s = Math_min 590 (innerHeight low_anchor_page - pad)
    ∧ (measurable 280 low_anchor_page
         {| r_left := 700; r_top := 590; r_width := 200 |} = true →
       (pad <=? left s) = true
       ∧ (left s <=? Math_max pad (innerWidth low_anchor_page - width s - pad))
         = true
       ∧ (maxHeight s <=? innerHeight low_anchor_page - 2 * pad) = true).
Proof.
  apply (computePlacement_formulas 280 low_anchor_page
           {| r_left := 700; r_top := 590; r_width := 200 |}).
  reflexivity.
Defined.

(** C7 as stated fails: in a viewport 17 px wide an anchor 0.4 px wide at
    the right gives [left = 8.600000000000001], and [left + width] is
    [9.000000000000002], above [innerWidth - pad = 9]. *)
Lemma computePlacement_right_edge_rounds :
  ∃ r s, toggleRef narrow_page = Some r
    ∧ measurable 280 narrow_page r = true
    ∧ computePlacement 280 narrow_page = Some s
    ∧ width s = 0.4 ∧ left s = 8.600000000000001
    ∧ left s + width s = 9.000000000000002
    ∧ innerWidth narrow_page - pad = 9
    ∧ (left s + width s <=? innerWidth narrow_page - pad) = false
    ∧ (innerWidth narrow_page - pad <? left s + width s) = true.
Proof. do 2 eexists. repeat split; reflexivity. Qed.




End Placement.


(** ** KeyboardNavigator *)

Section Keyboard.
Context `{Collator}.

Lemma state_after_cons st e es :
  state_after st (e :: es) = state_after (step st e).1 es.
Proof.
  unfold state_after. simpl. destruct (step st e) as [st1 c1]. simpl.
  destruct (run st1 es) as [st2 c2]. reflexivity.
Qed.

Lemma state_after_app st es1 es2 :
  state_after st (es1 ++ es2) = state_after (state_after st es1) es2.
Proof.
  revert st. induction es1 as [|e es1 IH]; intros st; [done|].
  rewrite <- app_comm_cons, !state_after_cons. apply IH.
Qed.

Lemma filtered_place pg st : filtered (place pg st) = filtered st.
Proof. unfold place. by destruct (computePlacement _ _). Qed.

Lemma hoverIdx_place pg st : hoverIdx (place pg st) = hoverIdx st.
Proof. unfold place. by destruct (computePlacement _ _). Qed.

Lemma hoverIdx_sync_effect p st : hoverIdx (sync_effect p st) = hoverIdx st.
Proof.
  unfold sync_effect. destruct (values p) as [[|v vs]|]; try done;
    by destruct (no_dataUrl p).
Qed.

Lemma hoverIdx_fetch_effect p st : hoverIdx (fetch_effect p st) = hoverIdx st.
Proof.
  unfold fetch_effect. destruct (dataUrl p) as [u|]; [|done].
  by destruct (negb (JsString.truthy u) || values_given p).
Qed.

Lemma hoverIdx_mount p : hoverIdx (mount p) = -1.
Proof. unfold mount. by rewrite hoverIdx_fetch_effect, hoverIdx_sync_effect. Qed.

Lemma hover_bounded_zero st : hoverIdx st = 0 → hover_bounded st.
Proof. unfold hover_bounded. intros ->. lia. Qed.

Lemma filtered_setOpen b st : filtered (setOpen b st) = filtered st.
Proof. reflexivity. Qed.

Lemma filtered_setHoverIdx i st : filtered (setHoverIdx i st) = filtered st.
Proof. reflexivity. Qed.

Lemma hoverIdx_setOpen b st : hoverIdx (setOpen b st) = hoverIdx st.
Proof. reflexivity. Qed.

Lemma hoverIdx_setHoverIdx i st : hoverIdx (setHoverIdx i st) = i.
Proof. reflexivity. Qed.

Create Rewrite HintDb hover.
#[local] Hint Rewrite filtered_setOpen filtered_setHoverIdx filtered_place
  hoverIdx_setOpen hoverIdx_setHoverIdx hoverIdx_place : hover.

(** Every handler of a user event keeps [hoverIdx] in the bounded range. *)
Lemma step_hover_bounded st e :
  user_event e = true → hover_bounded st → hover_bounded (step st e).1.
Proof.
  intros He Hst. unfold hover_bounded in *.
  destruct e as [p' fv fo|id o|k pg|q|pg| |idx|idx| | |pg]; try discriminate;
    cbn [step fst].
  - unfold onKeyDown. destruct (open st); cbn [negb].
    + destruct k; cbn [fst]; autorewrite with hover; try done; try lia.
      destruct (hovered st); cbn [fst]; done.
    + destruct k; cbn [fst]; autorewrite with hover; try done; lia.
  - autorewrite with hover. lia.
  - unfold onToggleClick. destruct (open st); cbn [negb];
      autorewrite with hover; done.
  - autorewrite with hover; done.
  - case_bool_decide as Hidx; cbn [fst]; autorewrite with hover; [lia|done].
  - destruct (filtered st !! idx); cbn [fst]; done.
  - case_bool_decide; cbn [fst]; done.
  - case_bool_decide; cbn [fst]; done.
  - autorewrite with hover; done.
Qed.

(** C6 (amended).  From mounting on, across every sequence of user events
    (arrow keys and query changes among them), [hoverIdx] stays within
    [[-1, max(0, filtered.length - 1)]]: within [[-1, filtered.length - 1]]
    whenever the filtered list is not empty, and within [[-1, 0]] when it
    is. *)
Theorem hoverIdx_bounded p es :
  Forall (λ e, user_event e = true) es →
  let st := state_after (mount p) es in
  hover_bounded st
  ∧ (filtered st ≠ [] → hover_in_range st)
  ∧ (filtered st = [] → -1 ≤ hoverIdx st ≤ 0).
Proof.
  intros Hes st.
  assert (Hb : hover_bounded st).
  { subst st. assert (H0 : hover_bounded (mount p)).
    { unfold hover_bounded. rewrite hoverIdx_mount. lia. }
    revert H0. generalize (mount p) as st.
    induction Hes as [|e es He Hes IH]; intros st Hst; [exact Hst|].
    rewrite state_after_cons. apply IH. by apply step_hover_bounded. }
  clearbody st. split; [exact Hb|]. unfold hover_bounded, hover_in_range in *.
  split.
  - intros Hne. destruct (filtered st) as [|o t]; [done|].
    rewrite length_cons in *. lia.
  - intros Hnil. rewrite Hnil in Hb. simpl in Hb. lia.
Qed.

End Keyboard.

Lemma hoverIdx_bounded_witness :
  let st := state_after (mount demo_props)
              [KeyDown ArrowDown low_anchor_page; KeyDown ArrowDown low_anchor_page;
               QueryInput "a"; KeyDown ArrowUp low_anchor_page] in
  hover_bounded st
  ∧ (filtered st ≠ [] → hover_in_range st)
  ∧ (filtered st = [] → -1 ≤ hoverIdx st ≤ 0).
Proof.
  apply (hoverIdx_bounded demo_props).
  repeat constructor.
Defined.

(** C6 as stated fails: a query that matches nothing empties the filtered
    list and sets [hoverIdx] to 0, above [filtered.length - 1 = -1]. *)
Lemma hoverIdx_leaves_range :
  let st := state_after (mount demo_props)
              [KeyDown ArrowDown low_anchor_page; QueryInput "zzz"] in
  filtered st = [] ∧ hoverIdx st = 0 ∧ ¬ hover_in_range st.
Proof.
  split; [reflexivity|]. split; [reflexivity|].
  unfold hover_in_range. vm_compute. intros [_ Hle]. apply Hle. reflexivity.
Qed.


(** ** OptionSourceResolver and the staleness flag *)

Section Resolver.
Context `{Collator}.

Lemma values_given_true p :
  values_given p = true ↔ ∃ v vs, values p = Some (v :: vs).
Proof.
  unfold values_given. destruct (values p) as [[|v vs]|].
  - split; [discriminate|]. intros (? & ? & ?). discriminate.
  - split; [|done]. intros _. by exists v, vs.
  - split; [discriminate|]. intros (? & ? & ?). discriminate.
Qed.

Lemma values_given_false p v vs :
  values_given p = false → values p = Some (v :: vs) → False.
Proof. unfold values_given. intros Hg Hv. rewrite Hv in Hg. discriminate. Qed.

Lemma no_dataUrl_false p :
  no_dataUrl p = false ↔ ∃ u, dataUrl p = Some u ∧ JsString.truthy u = true.
Proof.
  unfold no_dataUrl. destruct (dataUrl p) as [u|].
  - destruct (JsString.truthy u) eqn:E; simpl.
    + split; [|done]. intros _. by exists u.
    + split; [discriminate|]. intros (u' & Hu & Ht).
      injection Hu as <-. congruence.
  - split; [discriminate|]. intros (u' & Hu & _). discriminate.
Qed.

(** *** The effects *)

Lemma sync_effect_values p st v vs :
  values p = Some (v :: vs) → sync_effect p st = setEffectiveOptions (v :: vs) st.
Proof. unfold sync_effect. by intros ->. Qed.

Lemma sync_effect_static p st :
  values_given p = false → no_dataUrl p = true →
  sync_effect p st = setEffectiveOptions (options p) st.
Proof.
  unfold sync_effect, values_given. intros Hv ->.
  by destruct (values p) as [[|v vs]|].
Qed.

Lemma sync_effect_remote p st :
  values_given p = false → no_dataUrl p = false → sync_effect p st = st.
Proof.
  unfold sync_effect, values_given. intros Hv ->.
  by destruct (values p) as [[|v vs]|].
Qed.

Lemma fetch_effect_skip p st :
  values_given p = true ∨ no_dataUrl p = true →
  fetch_effect p st = with_fetches (fetches st) None st.
Proof.
  unfold fetch_effect, no_dataUrl. destruct (dataUrl p) as [u|]; [|done].
  intros [-> | ->]; by rewrite ?orb_true_r.
Qed.

Lemma fetch_effect_start p st u :
  values_given p = false → dataUrl p = Some u → JsString.truthy u = true →
  fetch_effect p st =
    with_fetches
      (fetches st ++ [{| f_url := u; f_label := label p;
                        cancelled := false; settled := None |}])
      (Some (length (fetches st)))
      (setLoadError None (setLoading true st)).
Proof. unfold fetch_effect. by intros -> -> ->. Qed.

Lemma run_cleanup_cleanup st : cleanup (run_cleanup st) = None.
Proof. unfold run_cleanup. by destruct (cleanup st) eqn:E. Qed.

Lemma run_cleanup_length st :
  length (fetches (run_cleanup st)) = length (fetches st).
Proof.
  unfold run_cleanup. destruct (cleanup st); [|done]. simpl.
  by rewrite length_alter.
Qed.

Lemma run_cleanup_view st : view (run_cleanup st) = view st.
Proof. unfold run_cleanup. by destruct (cleanup st). Qed.

Lemma run_cleanup_props st : props (run_cleanup st) = props st.
Proof. unfold run_cleanup. by destruct (cleanup st). Qed.

(** After the cleanup no fetch is left uncancelled, provided the only
    uncancelled one was the cleanup's. *)
Lemma run_cleanup_all_cancelled st :
  (∀ i f, fetches st !! i = Some f → cancelled f = false → cleanup st = Some i) →
  ∀ i f, fetches (run_cleanup st) !! i = Some f → cancelled f = true.
Proof.
  intros Hu i f. unfold run_cleanup. destruct (cleanup st) as [c|] eqn:Ec; simpl.
  - destruct (decide (c = i)) as [->|Hne].
    + rewrite list_lookup_alter_eq.
      destruct (fetches st !! i); simpl; [|done]. by intros [= <-].
    + rewrite list_lookup_alter_ne by done. intros Hf.
      destruct (cancelled f) eqn:Ecf; [done|].
      specialize (Hu i f Hf Ecf). congruence.
  - intros Hf. destruct (cancelled f) eqn:Ecf; [done|].
    specialize (Hu i f Hf Ecf). congruence.
Qed.

Lemma sync_effect_synced p st : synced p (sync_effect p st).
Proof.
  split.
  - intros v vs Hv. by rewrite (sync_effect_values _ _ _ _ Hv).
  - intros Hg Hn. by rewrite sync_effect_static.
Qed.

Lemma sync_effect_fetches p st :
  fetches (sync_effect p st) = fetches st
  ∧ cleanup (sync_effect p st) = cleanup st
  ∧ props (sync_effect p st) = props st
  ∧ loading (sync_effect p st) = loading st
  ∧ loadError (sync_effect p st) = loadError st.
Proof.
  unfold sync_effect. destruct (values p) as [[|v vs]|]; try done;
    by destruct (no_dataUrl p).
Qed.

Lemma sync_effect_idle p st : idle st → idle (sync_effect p st).
Proof.
  unfold idle. destruct (sync_effect_fetches p st) as (-> & -> & _). done.
Qed.

Lemma fetch_effect_Inv p st :
  props st = p → idle st → synced p st → Inv (fetch_effect p st).
Proof.
  intros Hp [Hall Hc] [Hv Hs].
  destruct (values_given p) eqn:Hg; [|destruct (no_dataUrl p) eqn:Hn].
  - rewrite fetch_effect_skip by auto. split; simpl; rewrite ?Hp.
    + intros i f Hf Hcf. rewrite (Hall i f Hf) in Hcf. discriminate.
    + intros v vs Hvs. by split; [apply Hv|].
    + congruence.
    + congruence.
  - rewrite fetch_effect_skip by auto. split; simpl; rewrite ?Hp.
    + intros i f Hf Hcf. rewrite (Hall i f Hf) in Hcf. discriminate.
    + intros v vs Hvs. by split; [apply Hv|].
    + intros _ _. by split; [apply Hs|].
    + congruence.
  - destruct (proj1 (no_dataUrl_false p) Hn) as (u & Hu & Ht).
    rewrite (fetch_effect_start p st u Hg Hu Ht). split; simpl; rewrite ?Hp.
    + intros i f Hf Hcf. apply lookup_app_Some in Hf as [Hf|[Hlen Hf]].
      * rewrite (Hall i f Hf) in Hcf. discriminate.
      * apply list_lookup_singleton_Some in Hf as [Hi _]. f_equal. lia.
    + intros v vs Hvs. exfalso. by eapply values_given_false.
    + congruence.
    + intros _ _. eexists _, _, u. split; [done|].
      split; [by rewrite lookup_app_r, Nat.sub_diag by lia|].
      simpl. unfold remote_phase. simpl. done.
Qed.

Lemma Inv_mount p : Inv (mount p).
Proof.
  unfold mount. apply fetch_effect_Inv.
  - by destruct (sync_effect_fetches p (initial p)) as (_ & _ & -> & _).
  - apply sync_effect_idle. split; [|done]. intros i f Hf.
    simpl in Hf. by rewrite lookup_nil in Hf.
  - apply sync_effect_synced.
Qed.

Lemma deps_unchanged p p' fv :
  fetch_deps_changed p p' fv = false →
  fv = false ∧ dataUrl p = dataUrl p' ∧ label p = label p' ∧ values p = values p'.
Proof.
  unfold fetch_deps_changed. rewrite !orb_false_iff.
  intros [[[-> Hu] Hl] Hv].
  apply bool_decide_eq_false in Hu, Hl, Hv.
  repeat split; apply dec_stable; done.
Qed.

Lemma sync_deps_unchanged p p' fv fo :
  sync_deps_changed p p' fv fo = false →
  values p = values p' ∧ options p = options p' ∧ dataUrl p = dataUrl p'.
Proof.
  unfold sync_deps_changed. rewrite !orb_false_iff.
  intros [[[[_ _] Hv] Ho] Hu].
  apply bool_decide_eq_false in Hu, Ho, Hv.
  repeat split; apply dec_stable; done.
Qed.

(** A state whose props changed outside the dependencies of both effects,
    or inside those of the first effect alone, which then ran. *)
Lemma Inv_same_epoch st st' :
  Inv st →
  values (props st') = values (props st) →
  dataUrl (props st') = dataUrl (props st) →
  label (props st') = label (props st) →
  fetches st' = fetches st → cleanup st' = cleanup st →
  loading st' = loading st → loadError st' = loadError st →
  (effectiveOptions st' = effectiveOptions st
   ∧ (options (props st') = options (props st) ∨ no_dataUrl (props st') = false
      ∨ values_given (props st') = true)
   ∨ (synced (props st') st'
      ∧ (values_given (props st') = false → no_dataUrl (props st') = false →
         effectiveOptions st' = effectiveOptions st))) →
  Inv st'.
Proof.
  intros [Hu Hv Hs Hr] Ev Ed El Ef Ec Elo Ele Hopt.
  assert (Eg : values_given (props st') = values_given (props st))
    by (unfold values_given; by rewrite Ev).
  assert (En : no_dataUrl (props st') = no_dataUrl (props st))
    by (unfold no_dataUrl; by rewrite Ed).
  split.
  - intros i f. rewrite Ef, Ec. apply Hu.
  - intros v vs Hvs. rewrite Ec. rewrite Ev in Hvs.
    destruct (Hv v vs Hvs) as [Ho Hc]. split; [|done].
    destruct Hopt as [[Eo _]|[[Hsv _] _]]; [congruence|].
    apply Hsv. congruence.
  - intros Hg Hn. rewrite Ec. rewrite Eg in Hg. rewrite En in Hn.
    destruct (Hs Hg Hn) as [Ho Hc]. split; [|done].
    destruct Hopt as [[Eo [Eop|[Hn'|Hg']]]|[[_ Hss] _]]; try congruence.
    apply Hss; congruence.
  - intros Hg Hn.
    assert (Eo : effectiveOptions st' = effectiveOptions st).
    { destruct Hopt as [[Eo _]|[_ Ho]]; [done|]. by apply Ho. }
    rewrite Eg in Hg. rewrite En in Hn.
    destruct (Hr Hg Hn) as (i & f & u & Hc & Hf & Hcf & Hd & Hfu & Hfl & Hph).
    exists i, f, u. rewrite Ec, Ef, Ed, El. repeat split; try done.
    unfold remote_phase in *. rewrite El, Elo, Ele, Eo. exact Hph.
Qed.

Lemma Inv_rerender st p' fv fo : Inv st → Inv (rerender p' fv fo st).
Proof.
  intros HI. unfold rerender.
  destruct (fetch_deps_changed (props st) p' fv) eqn:Hf.
  - apply fetch_effect_Inv.
    + destruct (sync_deps_changed _ _ _ _).
      * destruct (sync_effect_fetches p' (run_cleanup (with_props p' st)))
          as (_ & _ & -> & _). by rewrite run_cleanup_props.
      * by rewrite run_cleanup_props.
    + assert (Hid : idle (run_cleanup (with_props p' st))).
      { split; [|apply run_cleanup_cleanup].
        apply run_cleanup_all_cancelled. apply (inv_unique _ HI). }
      destruct (sync_deps_changed _ _ _ _); [by apply sync_effect_idle|done].
    + destruct (sync_deps_changed (props st) p' fv fo) eqn:Hs;
        [apply sync_effect_synced|].
      apply sync_deps_unchanged in Hs as (Ev & Eo & Ed).
      assert (Eopt : effectiveOptions (run_cleanup (with_props p' st))
                     = effectiveOptions st).
      { pose proof (run_cleanup_view (with_props p' st)) as Hview.
        unfold view in Hview. by injection Hview. }
      split.
      * intros v vs Hv. rewrite Eopt. rewrite <- Ev in Hv.
        by destruct (inv_values _ HI v vs Hv).
      * intros Hg Hn. rewrite Eopt, <- Eo.
        assert (Hg' : values_given (props st) = false)
          by (unfold values_given in *; by rewrite Ev).
        assert (Hn' : no_dataUrl (props st) = true)
          by (unfold no_dataUrl in *; by rewrite Ed).
        by destruct (inv_static _ HI Hg' Hn').
  - apply deps_unchanged in Hf as (_ & Ed & El & Ev).
    destruct (sync_deps_changed (props st) p' fv fo) eqn:Hs.
    + destruct (sync_effect_fetches p' (with_props p' st))
        as (Ef & Ec & Ep & Elo & Ele).
      apply (Inv_same_epoch st); rewrite ?Ep; try done.
      right. split; [apply sync_effect_synced|].
      intros Hg Hn. by rewrite sync_effect_remote.
    + apply sync_deps_unchanged in Hs as (_ & Eo & _).
      apply (Inv_same_epoch st); try done. left. split; [done|by left].
Qed.

(** *** A fetch settles *)

Lemma commit_cancelled f o st : cancelled f = true → commit f o st = st.
Proof. unfold commit. by intros ->. Qed.

Lemma commit_fields f o st :
  props (commit f o st) = props st
  ∧ fetches (commit f o st) = fetches st
  ∧ cleanup (commit f o st) = cleanup st.
Proof.
  unfold commit. destruct (cancelled f); [done|].
  by destruct (load_result (f_label f) o).
Qed.

(** A settle that changes the fetch table changes one entry, and only its
    promise state. *)
Lemma settle_lookup st id o i f :
  fetches st !! i = Some f →
  ∃ f', fetches (settle id o st) !! i = Some f'
    ∧ f_url f' = f_url f ∧ f_label f' = f_label f
    ∧ cancelled f' = cancelled f
    ∧ (is_Some (settled f) → is_Some (settled f')).
Proof.
  intros Hf. unfold settle.
  destruct (fetches st !! id) as [g|] eqn:Hg; [|by exists f].
  destruct (settled g) eqn:Hsg; [by exists f|].
  destruct (commit_fields g o
    (with_fetches (<[id := {| f_url := f_url g; f_label := f_label g;
       cancelled := cancelled g; settled := Some o |}]> (fetches st))
       (cleanup st) st)) as (_ & -> & _). simpl.
  destruct (decide (id = i)) as [->|Hne].
  - rewrite list_lookup_insert_eq by (by eapply lookup_lt_Some).
    eexists. split; [done|]. simpl. assert (g = f) as -> by congruence.
    repeat split; try done; intros _; by eexists.
  - rewrite list_lookup_insert_ne by done. by exists f.
Qed.

Lemma settle_pending_lookup st id o g :
  fetches st !! id = Some g → settled g = None →
  fetches (settle id o st) !! id
  = Some {| f_url := f_url g; f_label := f_label g;
            cancelled := cancelled g; settled := Some o |}.
Proof.
  intros Hg Hsg. unfold settle. rewrite Hg, Hsg.
  destruct (commit_fields g o
    (with_fetches (<[id := {| f_url := f_url g; f_label := f_label g;
       cancelled := cancelled g; settled := Some o |}]> (fetches st))
       (cleanup st) st)) as (_ & -> & _). simpl.
  by rewrite list_lookup_insert_eq by (by eapply lookup_lt_Some).
Qed.

Lemma settle_lookup_inv st id o i f' :
  fetches (settle id o st) !! i = Some f' →
  ∃ f, fetches st !! i = Some f ∧ cancelled f' = cancelled f
    ∧ f_label f' = f_label f ∧ f_url f' = f_url f
    ∧ (settled f' = settled f ∨ (i = id ∧ settled f = None ∧ settled f' = Some o)).
Proof.
  unfold settle.
  destruct (fetches st !! id) as [g|] eqn:Hg; [|intros Hf; exists f'; auto 10].
  destruct (settled g) eqn:Hsg; [intros Hf; exists f'; auto 10|].
  destruct (commit_fields g o
    (with_fetches (<[id := {| f_url := f_url g; f_label := f_label g;
       cancelled := cancelled g; settled := Some o |}]> (fetches st))
       (cleanup st) st)) as (_ & -> & _). simpl.
  destruct (decide (id = i)) as [->|Hne].
  - rewrite list_lookup_insert_eq by (by eapply lookup_lt_Some).
    intros [= <-]. exists g. simpl. auto 10.
  - rewrite list_lookup_insert_ne by done. intros Hf. exists f'. auto 10.
Qed.

Lemma settle_props st id o :
  props (settle id o st) = props st ∧ cleanup (settle id o st) = cleanup st.
Proof.
  unfold settle. destruct (fetches st !! id) as [g|]; [|done].
  destruct (settled g); [done|].
  by destruct (commit_fields g o
    (with_fetches (<[id := {| f_url := f_url g; f_label := f_label g;
       cancelled := cancelled g; settled := Some o |}]> (fetches st))
       (cleanup st) st)) as (-> & _ & ->).
Qed.

(** Settling changes the view only for a fetch that is neither cancelled
    nor settled before. *)
Lemma settle_view_changes st id o :
  view (settle id o st) ≠ view st →
  ∃ f, fetches st !! id = Some f ∧ cancelled f = false ∧ settled f = None.
Proof.
  unfold settle. destruct (fetches st !! id) as [f|]; [|done].
  destruct (settled f) eqn:Hs; [done|].
  destruct (cancelled f) eqn:Hc; [|intros _; by exists f].
  by rewrite commit_cancelled.
Qed.

Lemma settle_view_cancelled st id o f :
  fetches st !! id = Some f → cancelled f = true →
  view (settle id o st) = view st.
Proof.
  intros Hf Hc. destruct (decide (view (settle id o st) = view st)) as [|Hne];
    [done|].
  apply settle_view_changes in Hne as (g & Hg & Hcg & _). congruence.
Qed.

Lemma settle_view_settled st id o f :
  fetches st !! id = Some f → is_Some (settled f) →
  view (settle id o st) = view st.
Proof.
  intros Hf [o' Hs]. destruct (decide (view (settle id o st) = view st)) as [|Hne];
    [done|].
  apply settle_view_changes in Hne as (g & Hg & _ & Hsg). congruence.
Qed.

(** What the settling of the current fetch commits. *)
Lemma settle_commits st id o f :
  fetches st !! id = Some f → cancelled f = false → settled f = None →
  loading (settle id o st) = false
  ∧ match load_result (f_label f) o with
    | Ok u => effectiveOptions (settle id o st) = u
              ∧ loadError (settle id o st) = loadError st
    | Throw m => effectiveOptions (settle id o st) = []
                 ∧ loadError (settle id o st) = Some (error_text m)
    end.
Proof.
  intros Hf Hc Hs. unfold settle. rewrite Hf, Hs. unfold commit. rewrite Hc.
  by destruct (load_result (f_label f) o).
Qed.

Lemma Inv_settle st id o : Inv st → Inv (settle id o st).
Proof.
  intros HI. destruct (settle_props st id o) as [Ep Ec].
  destruct (fetches st !! id) as [g|] eqn:Hg;
    [|unfold settle; by rewrite Hg].
  destruct (settled g) eqn:Hsg; [unfold settle; by rewrite Hg, Hsg|].
  destruct (cancelled g) eqn:Hcg.
  - (* a stale fetch: nothing but its promise state changes *)
    assert (Hview : view (settle id o st) = view st)
      by (by eapply settle_view_cancelled).
    unfold view in Hview. injection Hview as Eo El Ee.
    split; rewrite ?Ep, ?Ec.
    + intros i f Hf Hcf. apply settle_lookup_inv in Hf as (f0 & Hf0 & E & _).
      apply (inv_unique _ HI i f0 Hf0). congruence.
    + intros v vs Hv. rewrite Eo. by apply (inv_values _ HI).
    + intros Hg' Hn. rewrite Eo. by apply (inv_static _ HI).
    + intros Hg' Hn.
      destruct (inv_remote _ HI Hg' Hn) as (i & f & u & Hc & Hf & Hcf & Hd & Hu & Hl & Hph).
      assert (Hne : id ≠ i) by (intros ->; congruence).
      exists i, f, u. repeat split; try done.
      * unfold settle. rewrite Hg, Hsg.
        destruct (commit_fields g o
          (with_fetches (<[id := {| f_url := f_url g; f_label := f_label g;
             cancelled := cancelled g; settled := Some o |}]> (fetches st))
             (cleanup st) st)) as (_ & -> & _). simpl.
        by rewrite list_lookup_insert_ne.
      * unfold remote_phase in *. by rewrite Ep, Eo, El, Ee.
  - (* the current fetch *)
    pose proof (inv_unique _ HI id g Hg Hcg) as Hcl.
    destruct (settle_commits st id o g Hg Hcg Hsg) as [Hlo Hres].
    assert (Hcase : values_given (props st) = false
                    ∧ no_dataUrl (props st) = false).
    { destruct (values_given (props st)) eqn:Hvg.
      - apply values_given_true in Hvg as (v & vs & Hv).
        destruct (inv_values _ HI v vs Hv). congruence.
      - split; [done|]. destruct (no_dataUrl (props st)) eqn:Hn; [|done].
        destruct (inv_static _ HI Hvg Hn). congruence. }
    destruct Hcase as [Hvg Hn].
    destruct (inv_remote _ HI Hvg Hn) as (i & f & u & Hc & Hf & Hcf & Hd & Hu & Hl & Hph).
    assert (i = id) as -> by congruence. assert (f = g) as -> by congruence.
    unfold remote_phase in Hph. rewrite Hsg in Hph. destruct Hph as [_ Hle].
    split; rewrite ?Ep, ?Ec.
    + intros j f' Hf' Hcf'. apply settle_lookup_inv in Hf' as (f0 & Hf0 & E & _).
      apply (inv_unique _ HI j f0 Hf0). congruence.
    + intros v vs Hv. exfalso. by eapply values_given_false.
    + congruence.
    + intros _ _.
      pose proof (settle_pending_lookup st id o g Hg Hsg) as Hg'.
      eexists id, _, u. split; [done|]. split; [exact Hg'|].
      cbn [f_url f_label cancelled]. repeat split; try done.
      rewrite Ep, <- Hl.
      destruct (load_result (f_label g) o); destruct Hres as [? ?];
        split; congruence.
Qed.

(** *** User events *)

Lemma Inv_user st st' :
  props st' = props st → fetches st' = fetches st → cleanup st' = cleanup st →
  view st' = view st → Inv st → Inv st'.
Proof.
  intros Ep Ef Ec Hview HI. unfold view in Hview. injection Hview as Eo El Ee.
  apply (Inv_same_epoch st); try congruence. left. split; [done|left; congruence].
Qed.

Lemma place_fields pg st :
  props (place pg st) = props st ∧ fetches (place pg st) = fetches st
  ∧ cleanup (place pg st) = cleanup st ∧ view (place pg st) = view st.
Proof. unfold place. by destruct (computePlacement _ _). Qed.

Lemma user_step_fields st e :
  user_event e = true →
  props (step st e).1 = props st ∧ fetches (step st e).1 = fetches st
  ∧ cleanup (step st e).1 = cleanup st ∧ view (step st e).1 = view st.
Proof.
  intros He.
  destruct e as [p' fv fo|id o|k pg|q|pg| |idx|idx| | |pg]; try discriminate;
    cbn [step fst]; try done.
  - unfold onKeyDown. destruct (open st); cbn [negb].
    + destruct k; try done. by destruct (hovered st).
    + destruct k; cbn [fst]; try done; apply (place_fields pg st).
  - unfold onToggleClick. destruct (open st); cbn [negb]; [done|].
    apply (place_fields pg st).
  - by case_bool_decide.
  - by destruct (filtered st !! idx).
  - by case_bool_decide.
  - by case_bool_decide.
  - apply place_fields.
Qed.

Lemma Inv_step st e : Inv st → Inv (step st e).1.
Proof.
  intros HI. destruct (user_event e) eqn:He.
  - destruct (user_step_fields st e He) as (Ep & Ef & Ec & Ev).
    by apply (Inv_user st).
  - destruct e; try discriminate; cbn [step fst].
    + by apply Inv_rerender.
    + by apply Inv_settle.
Qed.

Lemma Inv_run st es : Inv st → Inv (state_after st es).
Proof.
  revert st. induction es as [|e es IH]; intros st HI; [done|].
  rewrite state_after_cons. apply IH. by apply Inv_step.
Qed.

Lemma Inv_reachable p es : Inv (state_after (mount p) es).
Proof. apply Inv_run, Inv_mount. Qed.

(** *** Started fetches are never forgotten, uncancelled or unsettled *)

Lemma run_cleanup_lookup st i f :
  fetches st !! i = Some f →
  ∃ f', fetches (run_cleanup st) !! i = Some f'
    ∧ settled f' = settled f ∧ (cancelled f = true → cancelled f' = true).
Proof.
  intros Hf. unfold run_cleanup. destruct (cleanup st) as [c|]; [|by exists f].
  simpl. destruct (decide (c = i)) as [->|Hne].
  - rewrite list_lookup_alter_eq, Hf. simpl. eexists. split; [done|]. by simpl.
  - rewrite list_lookup_alter_ne by done. by exists f.
Qed.

Lemma fetch_effect_lookup p st i f :
  fetches st !! i = Some f → fetches (fetch_effect p st) !! i = Some f.
Proof.
  intros Hf. unfold fetch_effect. destruct (dataUrl p) as [u|]; [|done].
  destruct (negb (JsString.truthy u) || values_given p); [done|].
  simpl. by apply lookup_app_l_Some.
Qed.

Lemma rerender_lookup st p' fv fo i f :
  fetches st !! i = Some f →
  ∃ f', fetches (rerender p' fv fo st) !! i = Some f'
    ∧ settled f' = settled f ∧ (cancelled f = true → cancelled f' = true).
Proof.
  intros Hf. unfold rerender.
  destruct (fetch_deps_changed (props st) p' fv).
  - destruct (run_cleanup_lookup (with_props p' st) i f Hf) as (f' & Hf' & Hs & Hc).
    exists f'. split; [|done]. apply fetch_effect_lookup.
    destruct (sync_deps_changed _ _ _ _); [|done].
    by destruct (sync_effect_fetches p' (run_cleanup (with_props p' st))) as (-> & _).
  - exists f. split; [|done].
    destruct (sync_deps_changed _ _ _ _); [|done].
    by destruct (sync_effect_fetches p' (with_props p' st)) as (-> & _).
Qed.

Lemma step_lookup st e i f :
  fetches st !! i = Some f →
  ∃ f', fetches (step st e).1 !! i = Some f'
    ∧ (is_Some (settled f) → is_Some (settled f'))
    ∧ (cancelled f = true → cancelled f' = true).
Proof.
  intros Hf. destruct (user_event e) eqn:He.
  - destruct (user_step_fields st e He) as (_ & -> & _). by exists f.
  - destruct e; try discriminate; cbn [step fst].
    + destruct (rerender_lookup st p' freshValues freshOptions i f Hf)
        as (f' & Hf' & Hs & Hc).
      exists f'. rewrite Hs. done.
    + destruct (settle_lookup st id o i f Hf) as (f' & Hf' & _ & _ & Hc & Hs).
      exists f'. rewrite Hc. done.
Qed.

Lemma run_lookup st es i f :
  fetches st !! i = Some f →
  ∃ f', fetches (state_after st es) !! i = Some f'
    ∧ (is_Some (settled f) → is_Some (settled f'))
    ∧ (cancelled f = true → cancelled f' = true).
Proof.
  revert st f. induction es as [|e es IH]; intros st f Hf; [by exists f|].
  rewrite state_after_cons.
  destruct (step_lookup st e i f Hf) as (f1 & Hf1 & Hs1 & Hc1).
  destruct (IH _ f1 Hf1) as (f2 & Hf2 & Hs2 & Hc2).
  exists f2. auto.
Qed.

Lemma rerender_props st p' fv fo : props (rerender p' fv fo st) = p'.
Proof.
  unfold rerender.
  assert (A : ∀ s, props s = p' → props (fetch_effect p' s) = p').
  { intros s Hs. unfold fetch_effect. destruct (dataUrl p') as [u|]; [|done].
    by destruct (negb (JsString.truthy u) || values_given p'). }
  assert (B : ∀ s, props s = p' → props (sync_effect p' s) = p').
  { intros s Hs. by destruct (sync_effect_fetches p' s) as (_ & _ & -> & _). }
  destruct (fetch_deps_changed _ _ _), (sync_deps_changed _ _ _ _);
    auto using run_cleanup_props.
Qed.

(** A re-render that changes the dependencies of the fetch effect cancels
    every fetch started before it. *)
Lemma rerender_cancels st p' fv fo i :
  Inv st → fetch_deps_changed (props st) p' fv = true →
  (i < length (fetches st))%nat →
  ∃ f, fetches (rerender p' fv fo st) !! i = Some f ∧ cancelled f = true.
Proof.
  intros HI Hd Hi. unfold rerender. rewrite Hd.
  assert (Hlen : (i < length (fetches (run_cleanup (with_props p' st))))%nat)
    by (by rewrite run_cleanup_length).
  apply lookup_lt_is_Some in Hlen as [f Hf].
  exists f. split.
  - apply fetch_effect_lookup.
    destruct (sync_deps_changed _ _ _ _); [|done].
    by destruct (sync_effect_fetches p' (run_cleanup (with_props p' st))) as (-> & _).
  - eapply run_cleanup_all_cancelled; [|exact Hf]. apply (inv_unique _ HI).
Qed.

(** With explicit values or without an endpoint a render starts no fetch. *)
Lemma rerender_no_fetch st p' fv fo :
  values_given p' = true ∨ no_dataUrl p' = true →
  length (fetches (rerender p' fv fo st)) = length (fetches st).
Proof.
  intros Hp. unfold rerender.
  destruct (fetch_deps_changed _ _ _).
  - rewrite fetch_effect_skip by done. simpl.
    destruct (sync_deps_changed _ _ _ _).
    + destruct (sync_effect_fetches p' (run_cleanup (with_props p' st))) as (-> & _).
      by rewrite run_cleanup_length.
    + by rewrite run_cleanup_length.
  - destruct (sync_deps_changed _ _ _ _); [|done].
    by destruct (sync_effect_fetches p' (with_props p' st)) as (-> & _).
Qed.

Lemma mount_no_fetch p :
  values_given p = true ∨ no_dataUrl p = true → fetches (mount p) = [].
Proof.
  intros Hp. unfold mount. rewrite fetch_effect_skip by done. simpl.
  by destruct (sync_effect_fetches p (initial p)) as (-> & _).
Qed.

(** A re-render that changes the dependencies and selects the remote source
    starts one fetch and sets the loading state. *)
Lemma rerender_starts_fetch st p' fv fo :
  fetch_deps_changed (props st) p' fv = true →
  values_given p' = false → no_dataUrl p' = false →
  let st' := rerender p' fv fo st in
  ∃ u, dataUrl p' = Some u
    ∧ fetches st' !! length (fetches st)
      = Some {| f_url := u; f_label := label p';
                cancelled := false; settled := None |}
    ∧ loading st' = true ∧ loadError st' = None.
Proof.
  intros Hd Hg Hn. simpl. unfold rerender. rewrite Hd.
  destruct (proj1 (no_dataUrl_false p') Hn) as (u & Hu & Ht).
  exists u. split; [done|].
  rewrite (fetch_effect_start p' _ u Hg Hu Ht). simpl.
  assert (El : ∀ s, length (fetches s) = length (fetches st) →
    (fetches s ++ [{| f_url := u; f_label := label p';
                      cancelled := false; settled := None |}])
      !! length (fetches st)
    = Some {| f_url := u; f_label := label p';
              cancelled := false; settled := None |}).
  { intros s Hs. by rewrite lookup_app_r, Hs, Nat.sub_diag by lia. }
  split; [|done]. apply El.
  destruct (sync_deps_changed _ _ _ _).
  - destruct (sync_effect_fetches p' (run_cleanup (with_props p' st))) as (-> & _).
    by rewrite run_cleanup_length.
  - by rewrite run_cleanup_length.
Qed.

Lemma quiet_step_cleanup st e :
  quiet st e = true → cleanup (step st e).1 = cleanup st.
Proof.
  intros Hq. destruct (user_event e) eqn:He.
  - by destruct (user_step_fields st e He) as (_ & _ & -> & _).
  - destruct e; try discriminate; cbn [step fst].
    + simpl in Hq. apply negb_true_iff in Hq. unfold rerender. rewrite Hq.
      destruct (sync_deps_changed _ _ _ _); [|done].
      by destruct (sync_effect_fetches p' (with_props p' st)) as (_ & -> & _).
    + by destruct (settle_props st id o) as [_ ->].
Qed.

Lemma same_epoch_cleanup st es :
  same_epoch st es → cleanup (state_after st es) = cleanup st.
Proof.
  revert st. induction es as [|e es IH]; intros st Hes; [done|].
  destruct Hes as [Hq Hes]. rewrite state_after_cons, (IH _ Hes).
  by apply quiet_step_cleanup.
Qed.

Lemma Inv_all_cancelled st :
  Inv st → cleanup st = None →
  ∀ i f, fetches st !! i = Some f → cancelled f = true.
Proof.
  intros HI Hc i f Hf. destruct (cancelled f) eqn:Hcf; [done|].
  pose proof (inv_unique _ HI i f Hf Hcf). congruence.
Qed.

Lemma values_change_is_deps_change p p' fv v vs :
  values p = Some (v :: vs) → values_given p' = false →
  fetch_deps_changed p p' fv = true.
Proof.
  intros Hv Hg. unfold fetch_deps_changed.
  rewrite !orb_true_iff. right. apply bool_decide_eq_true.
  intros E. rewrite Hv in E. symmetry in E. by eapply values_given_false.
Qed.

(** *** While the fetch is in flight *)

Lemma fetch_effect_options p st :
  effectiveOptions (fetch_effect p st) = effectiveOptions st.
Proof.
  unfold fetch_effect. destruct (dataUrl p) as [u|]; [|done].
  by destruct (negb (JsString.truthy u) || values_given p).
Qed.

Lemma run_cleanup_options st :
  effectiveOptions (run_cleanup st) = effectiveOptions st.
Proof. unfold run_cleanup. by destruct (cleanup st). Qed.

(** A render that selects the remote source leaves the options as they
    are. *)
Lemma rerender_remote_options st p' fv fo :
  values_given p' = false → no_dataUrl p' = false →
  effectiveOptions (rerender p' fv fo st) = effectiveOptions st.
Proof.
  intros Hg Hn. unfold rerender.
  destruct (fetch_deps_changed _ _ _), (sync_deps_changed _ _ _ _);
    rewrite ?fetch_effect_options, ?(sync_effect_remote p' _ Hg Hn),
      ?run_cleanup_options; done.
Qed.

Lemma awaiting_spec st :
  awaiting st = true ↔
  values_given (props st) = false ∧ no_dataUrl (props st) = false
  ∧ loading st = true.
Proof.
  unfold awaiting. rewrite !andb_true_iff, !negb_true_iff. tauto.
Qed.

(** No event changes the options and leaves the fetch in flight. *)
Lemma awaiting_step st e :
  awaiting (step st e).1 = true →
  effectiveOptions (step st e).1 = effectiveOptions st.
Proof.
  intros Ha. apply awaiting_spec in Ha as (Hg & Hn & Hl).
  destruct (user_event e) eqn:He.
  - destruct (user_step_fields st e He) as (_ & _ & _ & Ev).
    unfold view in Ev. congruence.
  - destruct e; try discriminate; cbn [step fst] in *.
    + rewrite rerender_props in Hg, Hn. by apply rerender_remote_options.
    + destruct (decide (view (settle id o st) = view st)) as [Ev|Hne].
      * unfold view in Ev. congruence.
      * apply settle_view_changes in Hne as (f & Hf & Hc & Hs).
        destruct (settle_commits st id o f Hf Hc Hs) as [Hl' _]. congruence.
Qed.

Lemma awaiting_run st es :
  awaiting_along st es →
  effectiveOptions (state_after st es) = effectiveOptions st.
Proof.
  revert st. induction es as [|e es IH]; intros st Hes; [done|].
  destruct Hes as [Ha Hes]. rewrite state_after_cons, (IH _ Hes).
  by apply awaiting_step.
Qed.

(** Mounting with the remote source: the fetch starts and the initial
    list, [values || options], stays. *)
Lemma mount_remote p :
  values_given p = false → no_dataUrl p = false →
  awaiting (mount p) = true
  ∧ effectiveOptions (mount p)
    = match values p with Some v => v | None => options p end.
Proof.
  intros Hg Hn. unfold mount. rewrite (sync_effect_remote p _ Hg Hn).
  destruct (proj1 (no_dataUrl_false p) Hn) as (u & Hu & Ht).
  rewrite (fetch_effect_start p _ u Hg Hu Ht).
  split; [|done]. apply awaiting_spec. by cbn.
Qed.

(** C3 (amended).  After mounting and any sequence of events, with [p] the
    current props: (1) a non-empty [values] array is the effective options
    list, no fetch is live, and a render with such props starts none;
    (2) with [values] empty or [null] and no [dataUrl], the [options] prop
    is the effective list and no fetch is live; (3) otherwise exactly one
    fetch is live, for the current [dataUrl] and [label]: while it is
    pending [loading] is set and [loadError] is clear, and once it has
    ended the effective list is the list it fetched, or is empty with
    [loadError] set when it failed; (4) when [values] goes from non-empty
    to empty the options are taken from [options] at once when there is no
    [dataUrl]; with a [dataUrl] a fetch is started, the old values stay the
    effective list, and the result of the fetch replaces them; (5) after
    mounting with the remote source the effective list is the initial
    [values || options]; (6) no sequence of events that keeps the fetch in
    flight changes the effective list; (7) an option of the filtered list
    can be clicked in every state, in flight or not. *)
Theorem option_source_precedence p0 es :
  let st := state_after (mount p0) es in
  let p := props st in
  (∀ v vs, values p = Some (v :: vs) →
     effectiveOptions st = v :: vs
     ∧ ∀ i f, fetches st !! i = Some f → cancelled f = true)
  ∧ (values_given p = false → no_dataUrl p = true →
     effectiveOptions st = options p
     ∧ ∀ i f, fetches st !! i = Some f → cancelled f = true)
  ∧ (values_given p = false → no_dataUrl p = false →
     ∃ i f u, dataUrl p = Some u ∧ fetches st !! i = Some f
       ∧ cancelled f = false ∧ f_url f = u ∧ f_label f = label p
       ∧ (∀ j g, fetches st !! j = Some g → cancelled g = false → j = i)
       ∧ match settled f with
         | None => loading st = true ∧ loadError st = None
         | Some o =>
             loading st = false
             ∧ match load_result (label p) o with
               | Ok u => effectiveOptions st = u ∧ loadError st = None
               | Throw m => effectiveOptions st = []
                            ∧ loadError st = Some (error_text m)
               end
         end)
  ∧ (∀ p' fv fo, values_given p' = true ∨ no_dataUrl p' = true →
       length (fetches (step st (Render p' fv fo)).1) = length (fetches st))
  ∧ (values_given p0 = true ∨ no_dataUrl p0 = true → fetches (mount p0) = [])
  ∧ (∀ v vs p' fv fo, values p = Some (v :: vs) → values_given p' = false →
       let st' := (step st (Render p' fv fo)).1 in
       (no_dataUrl p' = true → effectiveOptions st' = options p')
       ∧ (no_dataUrl p' = false →
          ∃ i f, fetches st' !! i = Some f ∧ cancelled f = false
            ∧ settled f = None ∧ loading st' = true
            ∧ awaiting st' = true
            ∧ effectiveOptions st' = v :: vs
            ∧ ∀ o, effectiveOptions (settle i o st')
                   = match load_result (label p') o with
                     | Ok u => u
                     | Throw _ => []
                     end))
  ∧ (values_given p0 = false → no_dataUrl p0 = false →
       awaiting (mount p0) = true
       ∧ effectiveOptions (mount p0)
         = match values p0 with Some v => v | None => options p0 end)
  ∧ (∀ es2, awaiting_along st es2 →
       effectiveOptions (state_after st es2) = effectiveOptions st)
  ∧ (∀ idx opt, filtered st !! idx = Some opt →
       (step st (OptionClick idx)).2 = toggleOption p opt).
Proof.
  intros st p. pose proof (Inv_reachable p0 es) as HI. fold st in HI.
  split; [|split; [|split; [|split; [|split; [|split; [|split; [|split]]]]]]].
  - intros v vs Hv. destruct (inv_values _ HI v vs Hv) as [Ho Hc].
    split; [done|]. by apply Inv_all_cancelled.
  - intros Hg Hn. destruct (inv_static _ HI Hg Hn) as [Ho Hc].
    split; [done|]. by apply Inv_all_cancelled.
  - intros Hg Hn.
    destruct (inv_remote _ HI Hg Hn) as (i & f & u & Hc & Hf & Hcf & Hd & Hu & Hl & Hph).
    exists i, f, u. repeat split; try done.
    intros j g Hj Hcg. pose proof (inv_unique _ HI j g Hj Hcg). congruence.
  - intros p' fv fo Hp. cbn [step fst]. by apply rerender_no_fetch.
  - apply mount_no_fetch.
  - intros v vs p' fv fo Hv Hg. cbn [step fst]. split.
    + intros Hn. pose proof (Inv_rerender st p' fv fo HI) as HI'.
      pose proof (inv_static _ HI') as Hs. rewrite rerender_props in Hs.
      by destruct (Hs Hg Hn).
    + intros Hn.
      pose proof (values_change_is_deps_change p p' fv v vs Hv Hg) as Hd.
      destruct (rerender_starts_fetch st p' fv fo Hd Hg Hn) as (u & Hu & Hf & Hlo & Hle).
      eexists _, _. split; [exact Hf|].
      split; [done|]. split; [done|]. split; [done|].
      split; [apply awaiting_spec; by rewrite rerender_props|].
      split.
      { rewrite (rerender_remote_options st p' fv fo Hg Hn).
        by destruct (inv_values _ HI v vs Hv). }
      intros o.
      destruct (settle_commits _ _ o _ Hf eq_refl eq_refl) as [_ Hres].
      cbn [f_label] in Hres.
      by destruct (load_result (label p') o); destruct Hres.
  - apply mount_remote.
  - apply awaiting_run.
  - intros idx opt Hopt. cbn [step]. by rewrite Hopt.
Qed.

(** C9.  A change of [dataUrl], [label] or [values] cancels every fetch
    started before it: whenever such a fetch settles afterwards, with
    whatever outcome, the options, the loading flag and the error stay as
    they are.  At any time at most one fetch is uncancelled; only the
    settling of that fetch, while pending, changes this state; and once it
    has settled nothing settles into this state again until the
    configuration changes. *)
Theorem stale_fetch_discarded p0 es1 :
  let st1 := state_after (mount p0) es1 in
  (∀ p' fv fo es2 id o,
     fetch_deps_changed (props st1) p' fv = true →
     (id < length (fetches st1))%nat →
     let st2 := state_after st1 (Render p' fv fo :: es2) in
     view (settle id o st2) = view st2)
  ∧ (∀ i j f g, fetches st1 !! i = Some f → fetches st1 !! j = Some g →
       cancelled f = false → cancelled g = false → i = j)
  ∧ (∀ id o, view (settle id o st1) ≠ view st1 →
       ∃ f, fetches st1 !! id = Some f ∧ cancelled f = false
         ∧ settled f = None ∧ cleanup st1 = Some id)
  ∧ (∀ id o f es2 j o',
       fetches st1 !! id = Some f → cancelled f = false → settled f = None →
       same_epoch (settle id o st1) es2 →
       let st2 := state_after (settle id o st1) es2 in
       view (settle j o' st2) = view st2).
Proof.
  intros st1. pose proof (Inv_reachable p0 es1) as HI. fold st1 in HI.
  split; [|split; [|split]].
  - intros p' fv fo es2 id o Hd Hid st2. subst st2.
    rewrite state_after_cons. cbn [step fst].
    destruct (rerender_cancels st1 p' fv fo id HI Hd Hid) as (f & Hf & Hc).
    destruct (run_lookup _ es2 id f Hf) as (f' & Hf' & _ & Hc').
    eapply settle_view_cancelled; [exact Hf'|auto].
  - intros i j f g Hf Hg Hcf Hcg.
    pose proof (inv_unique _ HI i f Hf Hcf).
    pose proof (inv_unique _ HI j g Hg Hcg). congruence.
  - intros id o Hne. apply settle_view_changes in Hne as (f & Hf & Hc & Hs).
    exists f. repeat split; try done. by apply (inv_unique _ HI id f).
  - intros id o f es2 j o' Hf Hc Hs Hes st2.
    destruct (decide (view (settle j o' st2) = view st2)) as [|Hne]; [done|].
    exfalso. apply settle_view_changes in Hne as (g & Hg & Hcg & Hsg).
    assert (HI2 : Inv st2) by (apply Inv_run; by apply Inv_settle).
    pose proof (inv_unique _ HI2 j g Hg Hcg) as Hcl2.
    unfold st2 in Hcl2. rewrite (same_epoch_cleanup _ _ Hes) in Hcl2.
    destruct (settle_props st1 id o) as [_ Ec]. rewrite Ec in Hcl2.
    rewrite (inv_unique _ HI id f Hf Hc) in Hcl2. injection Hcl2 as <-.
    pose proof (settle_pending_lookup st1 id o f Hf Hs) as Hf1.
    destruct (run_lookup _ es2 id _ Hf1) as (f2 & Hf2 & Hs2 & _).
    fold st2 in Hf2. assert (f2 = g) as -> by congruence.
    destruct Hs2 as [o2 Ho2]; [by eexists|]. congruence.
Qed.

End Resolver.

(** C3 as stated fails while the fetch is in flight.  The host drops the
    explicit values with an endpoint configured: the remote source is
    selected, the fetch is pending, and the effective list is still the old
    values, neither the static options nor a fetched list; its second
    entry can be clicked.  After mounting with the remote source the static
    options are the effective list although an endpoint is configured. *)
Lemma old_values_stay_in_flight :
  let st0 := mount valued_props in
  let st1 := (@step ascii_collator st0 (Render (remote_props "Tickers") false false)).1 in
  effectiveOptions st0 = ["Energy"; "Utilities"]
  ∧ values (props st1) = None
  ∧ no_dataUrl (props st1) = false
  ∧ options (props st1) = ["IBM"]
  ∧ fetches st1
    = [{| f_url := "http://localhost:7071/api/GetSymbols"; f_label := "Tickers";
          cancelled := false; settled := None |}]
  ∧ view st1 = (["Energy"; "Utilities"], true, None)
  ∧ (@step ascii_collator st1 (OptionClick 1)).2 = [Call 7%nat ["Utilities"]]
  ∧ view (mount (remote_props "Tickers")) = (["IBM"], true, None)
  ∧ fetches (mount (remote_props "Tickers"))
    = [{| f_url := "http://localhost:7071/api/GetSymbols"; f_label := "Tickers";
          cancelled := false; settled := None |}].
Proof. repeat split; reflexivity. Qed.


(** ** RemoteFetcher *)

Section Sorting.
Context `{Collator}.

Lemma sort_insert_perm x l : sort_insert localeCompare x l ≡ₚ x :: l.
Proof.
  induction l as [|y t IH]; simpl; [done|].
  destruct (localeCompare x y); try done.
  rewrite IH. apply Permutation_swap.
Qed.

Lemma Array_sort_perm l : Array_sort localeCompare l ≡ₚ l.
Proof.
  induction l as [|x t IH]; simpl; [done|].
  fold (Array_sort localeCompare t). by rewrite sort_insert_perm, IH.
Qed.

Lemma sort_insert_HdRel y x l :
  collated y x → HdRel collated y l →
  HdRel collated y (sort_insert localeCompare x l).
Proof.
  intros Hyx Hl. destruct l as [|z t]; simpl; [by constructor|].
  destruct (localeCompare x z); constructor; try done; by inversion Hl.
Qed.

Lemma sort_insert_sorted x l :
  Sorted collated l → Sorted collated (sort_insert localeCompare x l).
Proof.
  induction 1 as [|y t Ht IH Hy]; simpl; [by repeat constructor|].
  destruct (localeCompare x y) eqn:E.
  - repeat constructor; try done. unfold collated. congruence.
  - repeat constructor; try done. unfold collated. congruence.
  - constructor; [done|]. apply sort_insert_HdRel; [|done].
    by apply localeCompare_total.
Qed.

Lemma Array_sort_sorted l : Sorted collated (Array_sort localeCompare l).
Proof.
  induction l as [|x t IH]; simpl; [constructor|].
  by apply sort_insert_sorted.
Qed.

End Sorting.

Section Normalisation.

Lemma mapM_ok {A B} (f : A → Result B) (g : A → B) (l : list A) :
  (∀ x, x ∈ l → f x = Ok (g x)) → mapM f l = Ok (g <$> l).
Proof.
  induction l as [|x t IH]; intros Hf; simpl; [done|].
  rewrite (Hf x) by left. simpl. rewrite IH; [done|].
  intros y Hy. apply Hf. by right.
Qed.

Lemma String_primitive w : is_primitive w = true → Js.String_ w = Ok (prim_text w).
Proof. destruct w as [|[]| | | |]; simpl; done. Qed.

Lemma first_field_not_null keys fs : first_field keys fs ≠ Some JNull.
Proof.
  induction keys as [|k ks IH]; simpl; [done|].
  destruct (Js.own fs k) as [[]|]; done.
Qed.

Lemma coalesce_object keys fs :
  Js.coalesce (JObj fs) keys = Ok (default JNull (first_field keys fs)).
Proof.
  induction keys as [|k ks IH]; simpl; [done|].
  destruct (Js.own fs k) as [[]|]; done.
Qed.

(** On an object [buildLabel] gives the text of the first recognised field
    that is not [null], and [null] when there is none. *)
Lemma buildLabel_object label fs :
  buildLabel label (JObj fs)
  = match first_field (hint_keys label) fs with
    | Some w => s ←! Js.String_ w; Ok (Some s)
    | None => Ok None
    end.
Proof.
  assert (A : ∀ keys,
    (symbol ←! Js.coalesce (JObj fs) keys;
     if Js.nullish (Some symbol) then Ok None
     else s ←! Js.String_ symbol; Ok (Some s))
    = match first_field keys fs with
      | Some w => s ←! Js.String_ w; Ok (Some s)
      | None => Ok None
      end).
  { intros keys. rewrite coalesce_object.
    pose proof (first_field_not_null keys fs) as Hn.
    destruct (first_field keys fs) as [[]|]; simpl; done. }
  unfold buildLabel, hint_keys.
  repeat case_bool_decide; try apply A. done.
Qed.

Lemma buildLabel_plain label item :
  plain_item label item = true →
  ∃ raw, buildLabel label item = Ok raw
    ∧ filter_Boolean [raw] = option_list (label_of label item).
Proof.
  destruct item as [| | | | |fs]; try discriminate. simpl.
  rewrite buildLabel_object. unfold label_of.
  destruct (first_field (hint_keys label) fs) as [w|]; [|by exists None].
  intros Hw. rewrite (String_primitive w Hw). simpl.
  exists (Some (prim_text w)). split; [done|].
  unfold filter_Boolean. simpl. by destruct (JsString.truthy (prim_text w)).
Qed.

Lemma filter_Boolean_cons raw l :
  filter_Boolean (raw :: l) = filter_Boolean [raw] ++ filter_Boolean l.
Proof. unfold filter_Boolean. simpl. by destruct raw as [s|]; [destruct (JsString.truthy s)|]. Qed.

Lemma mapM_buildLabel_plain label a :
  forallb (plain_item label) a = true →
  ∃ labels, mapM (buildLabel label) a = Ok labels
    ∧ filter_Boolean labels = omap (label_of label) a.
Proof.
  induction a as [|x t IH]; simpl; [by exists []|].
  rewrite andb_true_iff. intros [Hx Ht].
  destruct (buildLabel_plain label x Hx) as (raw & -> & Hraw).
  destruct (IH Ht) as (labels & -> & Hl). simpl.
  exists (raw :: labels). split; [done|].
  rewrite filter_Boolean_cons, Hraw, Hl.
  by destruct (label_of label x).
Qed.

Lemma mapM_String_primitive a :
  forallb is_primitive a = true → mapM Js.String_ a = Ok (prim_text <$> a).
Proof.
  intros Ha. apply mapM_ok. intros x Hx. apply String_primitive.
  rewrite forallb_forall in Ha. apply Ha. by apply list_elem_of_In.
Qed.

Lemma fetched_from_array_branch label a :
  fetched_from_array label a
  = if head_is_object a
    then labels ←! mapM (buildLabel label) a; Ok (filter_Boolean labels)
    else mapM Js.String_ a.
Proof. unfold fetched_from_array, head_is_object. by destruct a. Qed.

Lemma fetchedValues_payload label data :
  fetchedValues label data
  = match payload_array data with
    | Some a => fetched_from_array label a
    | None => Ok []
    end.
Proof.
  destruct data as [|b|n|s|a|fs]; simpl; try done.
  - by destruct b.
  - by destruct (negb (n =? 0)).
  - by destruct (JsString.truthy s).
  - by destruct (Js.own fs "symbols") as [[]|].
Qed.

Lemma plain_head_is_object label a :
  forallb (plain_item label) a = true → a ≠ [] → head_is_object a = true.
Proof.
  destruct a as [|x t]; [done|]. simpl. rewrite andb_true_iff.
  intros [Hx _] _. by destruct x.
Qed.

End Normalisation.

Lemma uniqueValues_post `{Collator} label data u :
  uniqueValues label data = Ok u →
  ∃ fetched, fetchedValues label data = Ok fetched
    ∧ u ≡ₚ JsArray.Array_from_Set fetched
    ∧ NoDup u ∧ (∀ x, x ∈ u ↔ x ∈ fetched) ∧ Sorted collated u.
Proof.
  unfold uniqueValues. destruct (fetchedValues label data) as [fetched|m];
    simpl; [|discriminate].
  intros [= <-]. exists fetched. split; [done|].
  pose proof (Array_sort_perm (JsArray.Array_from_Set fetched)) as Hp.
  split; [done|]. split; [|split].
  - rewrite Hp. apply NoDup_Array_from_Set.
  - intros x. rewrite Hp. apply elem_of_Array_from_Set.
  - apply Array_sort_sorted.
Qed.

(** C4 (amended).  The array looked at is the payload, or the [symbols]
    property of an object payload; any other payload gives the empty list.
    The first element of the array selects the treatment of all of it: when
    it is not an object the elements are stringified, and when it is an
    object (and no element is [null]) each element gives the text of its
    first recognised field that is not [null] ([Symbol], [symbol], [Value],
    [value] for [Tickers]; [Industry], [industry]; [Sector], [sector]),
    elements without such a field or with an empty text being dropped.  The
    result is deduplicated and then sorted by the case-insensitive
    comparison, and is what a successful fetch commits as the effective
    options; on the example payload with hint [Tickers] it is
    [["AAPL"; "msft"]]. *)
Theorem uniqueValues_normalised :
  (∀ (C : Collator) label data,
     (payload_array data = None → uniqueValues label data = Ok [])
     ∧ (∀ a, payload_array data = Some a →
          (head_is_object a = false →
           uniqueValues label data
           = (fetched ←! mapM Js.String_ a;
              Ok (Array_sort localeCompare (JsArray.Array_from_Set fetched))))
          ∧ (head_is_object a = true → JNull ∉ a →
             uniqueValues label data
             = (labels ←! mapM (buildLabel label) a;
                Ok (Array_sort localeCompare
                      (JsArray.Array_from_Set (filter_Boolean labels)))))
          ∧ (head_is_object a = false → forallb is_primitive a = true →
             uniqueValues label data
             = Ok (Array_sort localeCompare
                     (JsArray.Array_from_Set (prim_text <$> a))))
          ∧ (forallb (plain_item label) a = true →
             uniqueValues label data
             = Ok (Array_sort localeCompare
                     (JsArray.Array_from_Set (omap (label_of label) a)))))
     ∧ (∀ u, uniqueValues label data = Ok u →
          ∃ fetched, fetchedValues label data = Ok fetched
            ∧ u ≡ₚ JsArray.Array_from_Set fetched
            ∧ NoDup u ∧ (∀ x, x ∈ u ↔ x ∈ fetched) ∧ Sorted collated u)
     ∧ (∀ u st id f status,
          uniqueValues (f_label f) data = Ok u →
          fetches st !! id = Some f → cancelled f = false → settled f = None →
          ok status = true →
          effectiveOptions (settle id (Response status (Ok data)) st) = u))
  ∧ @uniqueValues ascii_collator "Tickers" symbols_payload = Ok ["AAPL"; "msft"].
Proof.
  split; [|reflexivity].
  intros C label data. split; [|split; [|split]].
  - intros Hp. unfold uniqueValues. by rewrite fetchedValues_payload, Hp.
  - intros a Hp.
    assert (E : uniqueValues label data
      = (fetched ←! (if head_is_object a
                     then labels ←! mapM (buildLabel label) a;
                          Ok (filter_Boolean labels)
                     else mapM Js.String_ a);
         Ok (Array_sort localeCompare (JsArray.Array_from_Set fetched)))).
    { unfold uniqueValues.
      by rewrite fetchedValues_payload, Hp, fetched_from_array_branch. }
    split; [intros Hh; by rewrite E, Hh|]. split.
    { intros Hh _. rewrite E, Hh. by destruct (mapM (buildLabel label) a). }
    split.
    + intros Hh Ha. rewrite E, Hh, (mapM_String_primitive a Ha). done.
    + intros Ha. rewrite E.
      destruct (mapM_buildLabel_plain label a Ha) as (labels & Hl & Hf).
      destruct a as [|x t]; [done|].
      rewrite (plain_head_is_object label (x :: t) Ha) by done.
      rewrite Hl. simpl. by rewrite Hf.
  - apply uniqueValues_post.
  - intros u st id f status Hu Hf Hc Hs Hok.
    destruct (settle_commits st id (Response status (Ok data)) f Hf Hc Hs)
      as [_ Hres].
    unfold load_result in Hres. rewrite Hok in Hres. simpl in Hres.
    rewrite Hu in Hres. by destruct Hres.
Qed.

(** C4 as stated fails: an array that mixes a string and an object is
    neither an array of primitives nor an array of objects, yet it is
    stringified as a whole, because only its first element is examined; and
    an element whose field is the empty string is dropped although it has
    the field. *)
Lemma uniqueValues_first_element_decides :
  (@uniqueValues ascii_collator "Tickers" mixed_payload
     = Ok ["[object Object]"; "AAPL"]
   ∧ fetched_as_stated "Tickers" mixed_payload = []
   ∧ @uniqueValues ascii_collator "Tickers" mixed_payload
     ≠ Ok (Array_sort ascii_base_compare
             (JsArray.Array_from_Set (fetched_as_stated "Tickers" mixed_payload))))
  ∧ (@uniqueValues ascii_collator "Tickers" empty_symbol_payload = Ok ["AAPL"]
     ∧ fetched_as_stated "Tickers" empty_symbol_payload = [""; "AAPL"]
     ∧ @uniqueValues ascii_collator "Tickers" empty_symbol_payload
       ≠ Ok (Array_sort ascii_base_compare
               (JsArray.Array_from_Set
                  (fetched_as_stated "Tickers" empty_symbol_payload)))).
Proof.
  split; (split; [reflexivity|]; split; [reflexivity|]; discriminate).
Qed.

(** A [null] first element makes [buildLabel] read a property of [null]:
    [load] catches the [TypeError] and reports a failed load. *)
Example uniqueValues_null_first :
  @uniqueValues ascii_collator "Tickers" (JArr [JNull; JStr "AAPL"])
  = Throw "Cannot read properties of null (reading 'Symbol')".
Proof. reflexivity. Qed.

(** ** A run of the remote source *)

(** The component mounts with an endpoint and hint [Tickers]; the hint
    changes to [Sector] while the first request is in flight; the first
    request then answers, and is ignored; the second answers with status
    500, and its failure is committed. *)
Example remote_run :
  let st0 := mount (remote_props "Tickers") in
  let st1 := (@step ascii_collator st0 (Render (remote_props "Sector") false false)).1 in
  let st2 := (@step ascii_collator st1 (Settle 0 (Response 200 (Ok symbols_payload)))).1 in
  let st3 := (@step ascii_collator st2 (Settle 1 (Response 500 (Ok JNull)))).1 in
  view st0 = (["IBM"], true, None)
  ∧ cancelled <$> fetches st1 = [true; false]
  ∧ view st1 = (["IBM"], true, None)
  ∧ view st2 = view st1
  ∧ view st3 = ([], false, Some "HTTP 500").
Proof. repeat split; reflexivity. Qed.

(** Explicit values are dropped while an endpoint is configured: a fetch
    starts, the old values stay in place while it is pending, and its
    result replaces them. *)
Example values_emptied_run :
  let p1 := {| values := Some ["Energy"; "Utilities"]; options := ["IBM"];
               selected := []; onChange := Some 7%nat; label := "Tickers";
               maxPanelHeight := 280; multiSelect := true;
               dataUrl := Some "http://localhost:7071/api/GetSymbols" |} in
  let st0 := mount p1 in
  let st1 := (@step ascii_collator st0 (Render (remote_props "Tickers") false false)).1 in
  let st2 := (@step ascii_collator st1 (Settle 0 (Response 200 (Ok symbols_payload)))).1 in
  (view st0, fetches st0) = ((["Energy"; "Utilities"], false, None), [])
  ∧ view st1 = (["Energy"; "Utilities"], true, None)
  ∧ cancelled <$> fetches st1 = [false]
  ∧ view st2 = (["AAPL"; "msft"], false, None).
Proof. repeat split; reflexivity. Qed.

(** While the request is in flight the list shown at mounting stays: the
    user opens the panel and types, the hint changes, and the first request
    answers too late. *)
Example in_flight_run :
  let st0 := mount (remote_props "Tickers") in
  let es := [ToggleClick low_anchor_page; QueryInput "i";
             Render (remote_props "Sector") false false;
             Settle 0 (Response 200 (Ok symbols_payload))] in
  @awaiting_along ascii_collator st0 es
  ∧ view (@state_after ascii_collator st0 es) = (["IBM"], true, None).
Proof. repeat split; reflexivity. Qed.

(** Without a change of configuration the answer is committed. *)
Example remote_run_committed :
  let st0 := mount (remote_props "Tickers") in
  let st1 := (@step ascii_collator st0 (Settle 0 (Response 200 (Ok symbols_payload)))).1 in
  view st1 = (["AAPL"; "msft"], false, None).
Proof. reflexivity. Qed.


(** * Further properties *)

(** ** SelectionModel, with the host storing what is proposed *)

Section SelectionLoop.
Import JsArray.

Lemma filter_none (P : string → Prop) `{∀ x, Decision (P x)} (l : list string) :
  (∀ x, x ∈ l → ¬ P x) → filter P l = [].
Proof.
  induction l as [|x t IH]; intros Hl; [done|].
  rewrite filter_cons_False by (apply Hl; left). apply IH.
  intros y Hy. apply Hl. by right.
Qed.

Lemma gained_seen seen l : (∀ x, x ∈ l → x ∈ seen) → gained seen l = [].
Proof.
  intros Hl. rewrite gained_filter. apply filter_none.
  intros x Hx Hn. apply Hn, Hl.
  by apply (elem_of_gained x [] l) in Hx as [Hx _].
Qed.

Lemma Array_from_Set_fixed l : NoDup l → Array_from_Set l = l.
Proof. intros Hl. rewrite Array_from_Set_gained. by apply gained_NoDup_id. Qed.

Lemma Array_from_Set_absorb a b :
  Array_from_Set (Array_from_Set a ++ b) = Array_from_Set (a ++ b).
Proof.
  rewrite !Array_from_Set_app.
  by rewrite (Array_from_Set_fixed _ (NoDup_Array_from_Set a)).
Qed.

(** X1.  In multi-select mode, with the host storing each proposal:
    toggling an option that is not selected and toggling it again gives the
    selection back; toggling a selected option twice moves it to the end,
    which for a duplicate-free selection is a permutation of it. *)
Theorem toggleOption_twice p opt :
  multiSelect p = true →
  let once := toggleOption_next p opt in
  let twice := toggleOption_next (with_selected once p) opt in
  (opt ∉ selected p → twice = selected p)
  ∧ (opt ∈ selected p →
     twice = filter (λ s, s ≠ opt) (selected p) ++ [opt]
     ∧ (NoDup (selected p) → twice ≡ₚ selected p)).
Proof.
  intros Hm. unfold toggleOption_next. simpl. rewrite Hm. split.
  - intros Hn. rewrite (proj2 (includes_false _ _) Hn).
    assert (Hin : includes (selected p ++ [opt]) opt = true).
    { apply includes_true. rewrite elem_of_app, list_elem_of_singleton. auto. }
    rewrite Hin, filter_app, filter_ne_absent by done.
    rewrite filter_cons_False by (intros Hne; by apply Hne).
    by rewrite filter_nil, app_nil_r.
  - intros Hin. rewrite (proj2 (includes_true _ _) Hin).
    assert (Hout : includes (filter (λ s, s ≠ opt) (selected p)) opt = false).
    { apply includes_false. rewrite list_elem_of_filter. intros [Hne _]. by apply Hne. }
    rewrite Hout. split; [done|]. intros Hnd.
    apply list_elem_of_split in Hin as (l1 & l2 & Hs). rewrite Hs in *.
    apply NoDup_app in Hnd as (_ & H1 & H2).
    apply NoDup_cons in H2 as [H2 _].
    rewrite filter_ne_middle; [|intros Hx; apply (H1 opt Hx); by left|done].
    rewrite <- app_assoc. apply Permutation_app_head.
    symmetry. apply Permutation_cons_append.
Qed.

Lemma toggleOption_twice_witness :
  let once := toggleOption_next demo_props "IBM" in
  let twice := toggleOption_next (with_selected once demo_props) "IBM" in
  ("IBM" ∉ selected demo_props → twice = selected demo_props)
  ∧ ("IBM" ∈ selected demo_props →
     twice = filter (λ s, s ≠ "IBM") (selected demo_props) ++ ["IBM"]
     ∧ (NoDup (selected demo_props) → twice ≡ₚ selected demo_props)).
Proof. apply (toggleOption_twice demo_props "IBM"). reflexivity. Defined.

(** X2.  In single-select mode a toggle proposes the empty selection when
    the selection is exactly the toggled option, and the toggled option
    alone in every other case, whatever was selected; toggled twice, the
    option ends up selected if it was the selection and unselected
    otherwise. *)
Theorem toggleOption_single p opt :
  multiSelect p = false →
  let once := toggleOption_next p opt in
  let twice := toggleOption_next (with_selected once p) opt in
  (selected p = [opt] → once = [] ∧ twice = [opt])
  ∧ (selected p ≠ [opt] → once = [opt] ∧ twice = []).
Proof.
  intros Hm. unfold toggleOption_next. simpl. rewrite Hm. split.
  - intros ->. by rewrite bool_decide_eq_true_2.
  - intros Hne. destruct (selected p) as [|s0 [|s1 t]];
      rewrite ?bool_decide_eq_true_2 by done; try done.
    case_bool_decide as E; [by subst|].
    by rewrite bool_decide_eq_true_2.
Qed.

Lemma toggleOption_single_witness :
  let p := with_selected ["AAPL"; "MSFT"]
             {| values := None; options := []; selected := [];
                onChange := None; label := "Sector"; maxPanelHeight := 280;
                multiSelect := false; dataUrl := None |} in
  let once := toggleOption_next p "AAPL" in
  let twice := toggleOption_next (with_selected once p) "AAPL" in
  (selected p = ["AAPL"] → once = [] ∧ twice = ["AAPL"])
  ∧ (selected p ≠ ["AAPL"] → once = ["AAPL"] ∧ twice = []).
Proof.
  apply (toggleOption_single
           (with_selected ["AAPL"; "MSFT"]
              {| values := None; options := []; selected := [];
                 onChange := None; label := "Sector"; maxPanelHeight := 280;
                 multiSelect := false; dataUrl := None |}) "AAPL").
  reflexivity.
Defined.

(** X3.  [selectAll] accumulates and is idempotent: after the host has
    stored its proposal for one filtered list, [selectAll] on a second
    filtered list proposes what a single [selectAll] on both lists would,
    and on the same filtered list it proposes the stored selection again. *)
Theorem selectAll_accumulates p f1 f2 :
  selectAll_next (with_selected (selectAll_next p f1) p) f2
    = Array_from_Set (selected p ++ f1 ++ f2)
  ∧ selectAll_next (with_selected (selectAll_next p f1) p) f1
    = selectAll_next p f1.
Proof.
  unfold selectAll_next. simpl. split.
  - by rewrite Array_from_Set_absorb, app_assoc.
  - rewrite Array_from_Set_app.
    rewrite (Array_from_Set_fixed _ (NoDup_Array_from_Set _)).
    rewrite gained_seen, app_nil_r; [done|].
    intros x Hx. rewrite elem_of_Array_from_Set, elem_of_app. auto.
Qed.

(** X4.  A marker click in [App] flips the membership of the clicked name
    and of no other name, and proposes exactly what the dropdown's
    multi-select toggle proposes for the same selection. *)
Theorem handleMarkerClick_toggles sel siteName :
  (siteName ∈ handleMarkerClick sel siteName ↔ siteName ∉ sel)
  ∧ (∀ x, x ≠ siteName → x ∈ handleMarkerClick sel siteName ↔ x ∈ sel)
  ∧ (∀ p, multiSelect p = true →
       handleMarkerClick (selected p) siteName = toggleOption_next p siteName).
Proof.
  unfold handleMarkerClick. split; [|split].
  - destruct (includes sel siteName) eqn:E.
    + apply includes_true in E. rewrite list_elem_of_filter. split; [|done].
      intros [Hne _]. by destruct Hne.
    + apply includes_false in E. rewrite elem_of_app, list_elem_of_singleton.
      split; auto.
  - intros x Hx. destruct (includes sel siteName).
    + rewrite list_elem_of_filter. tauto.
    + rewrite elem_of_app, list_elem_of_singleton. tauto.
  - intros p Hm. unfold toggleOption_next. by rewrite Hm.
Qed.

End SelectionLoop.

(** ** SearchFilter: composition *)

Section FilterLaws.
Import JsString.

Lemma filtered_of_as_filter opts query :
  filtered_of opts query
  = filter (λ o, includes (toLowerCase o) (toLowerCase (trim query)) = true) opts.
Proof.
  unfold filtered_of. simpl.
  destruct (truthy (toLowerCase (trim query))) eqn:Hq; simpl; [done|].
  apply truthy_false in Hq. rewrite Hq.
  induction opts as [|o t IH]; [done|].
  rewrite filter_cons_True by apply includes_empty. by f_equal.
Qed.

Lemma elem_of_filtered_of opts query o :
  o ∈ filtered_of opts query → o ∈ opts.
Proof. rewrite filtered_of_as_filter, list_elem_of_filter. tauto. Qed.

Lemma append_assoc (a b c : string) : (a +:+ b) +:+ c = a +:+ (b +:+ c).
Proof.
  induction a as [|x a IH]; [done|].
  rewrite !append_cons. by rewrite IH.
Qed.

Lemma includes_trans a b c :
  includes a b = true → includes b c = true → includes a c = true.
Proof.
  rewrite !includes_spec. intros (x & y & ->) (u & v & ->).
  exists (x +:+ u), (v +:+ y). by rewrite !append_assoc.
Qed.

Lemma sublist_filter_weaken (P Q : string → Prop)
    `{∀ x, Decision (P x)} `{∀ x, Decision (Q x)} (l : list string) :
  (∀ x, P x → Q x) → sublist (filter P l) (filter Q l).
Proof.
  intros HPQ. induction l as [|x t IH]; [done|].
  destruct (decide (P x)) as [HP|HP].
  - rewrite (filter_cons_True P) by done.
    rewrite (filter_cons_True Q) by auto. by apply sublist_skip.
  - rewrite (filter_cons_False P) by done.
    destruct (decide (Q x)).
    + rewrite (filter_cons_True Q) by done. by apply sublist_cons.
    + by rewrite (filter_cons_False Q).
Qed.

(** X6.  Filtering is idempotent: filtering the filtered list with the same
    query gives the filtered list. *)
Theorem filtered_of_idempotent opts query :
  filtered_of (filtered_of opts query) query = filtered_of opts query.
Proof.
  rewrite !filtered_of_as_filter, list_filter_filter.
  apply list_filter_iff. tauto.
Qed.

(** X7.  A query that contains another (both trimmed and lowercased)
    narrows its result: what it keeps is a sublist of what the contained
    query keeps, so typing further characters never brings an option
    back. *)
Theorem filtered_of_narrows opts query query' :
  includes (toLowerCase (trim query')) (toLowerCase (trim query)) = true →
  sublist (filtered_of opts query') (filtered_of opts query).
Proof.
  intros Hq. rewrite !filtered_of_as_filter.
  apply sublist_filter_weaken. intros o Ho. by eapply includes_trans.
Qed.

Lemma filtered_of_narrows_witness :
  sublist (filtered_of ["AAPL"; "APPLE"; "MSFT"] " Appl")
          (filtered_of ["AAPL"; "APPLE"; "MSFT"] "ap ").
Proof.
  apply (filtered_of_narrows ["AAPL"; "APPLE"; "MSFT"] "ap " " Appl").
  reflexivity.
Defined.

End FilterLaws.

(** ** The selection under the host's echo *)

Section ControlledSelection.
Context `{Collator}.

(** What a user event can propose in state [st]. *)
Definition proposal (st : State) (next : list string) : Prop :=
  (∃ opt, opt ∈ filtered st ∧ next = toggleOption_next (props st) opt)
  ∨ next = selectAll_next (props st) (filtered st)
  ∨ next = [].

Lemma hovered_elem st opt : hovered st = Some opt → opt ∈ filtered st.
Proof.
  unfold hovered. destruct (hoverIdx st <? 0); [done|].
  apply list_elem_of_lookup_2.
Qed.

Lemma user_step_calls st e :
  user_event e = true →
  (step st e).2 = []
  ∨ ∃ next, (step st e).2 = call_onChange (props st) next ∧ proposal st next.
Proof.
  intros He.
  destruct e as [p' fv fo|id o|k pg|q|pg| |idx|idx| | |pg]; try discriminate;
    cbn [step snd]; auto.
  - unfold onKeyDown. destruct (open st); cbn [negb].
    + destruct k; cbn [snd]; auto.
      destruct (hovered st) as [opt|] eqn:Hh; cbn [snd]; auto.
      right. exists (toggleOption_next (props st) opt). split; [done|].
      left. exists opt. split; [by apply hovered_elem|done].
    + destruct k; cbn [snd]; auto.
  - case_bool_decide; cbn [snd]; auto.
  - destruct (filtered st !! idx) as [opt|] eqn:Hi; cbn [snd]; auto.
    right. exists (toggleOption_next (props st) opt). split; [done|].
    left. exists opt. split; [by eapply list_elem_of_lookup_2|done].
  - case_bool_decide; cbn [snd]; auto.
    right. exists (selectAll_next (props st) (filtered st)).
    split; [done|]. right. by left.
  - case_bool_decide; cbn [snd]; auto.
    right. exists []. split; [done|]. right. by right.
Qed.

Lemma rerender_selected_only updated st :
  rerender (with_selected updated (props st)) false false st
  = with_props (with_selected updated (props st)) st.
Proof.
  unfold rerender, fetch_deps_changed, sync_deps_changed. simpl.
  by rewrite !bool_decide_eq_false_2 by (intros Hne; by apply Hne).
Qed.

Lemma host_echo_call st next :
  (host_echo (call_onChange (props st) next) st = st ∧ onChange (props st) = None)
  ∨ host_echo (call_onChange (props st) next) st
    = with_props (with_selected next (props st)) st.
Proof.
  unfold call_onChange, host_echo. destruct (onChange (props st)); simpl.
  - right. apply rerender_selected_only.
  - left. done.
Qed.

Lemma proposal_sound st next :
  proposal st next →
  (NoDup (selected (props st)) → NoDup next)
  ∧ ∀ x, x ∈ next → x ∈ selected (props st) ∨ x ∈ effectiveOptions st.
Proof.
  intros [(opt & Hopt & ->)|[->| ->]].
  - split; [intros Hnd; apply (proposed_selection_NoDup (props st) opt [] Hnd)|].
    apply elem_of_filtered_of in Hopt.
    intros x. unfold toggleOption_next.
    destruct (multiSelect (props st)).
    + destruct (JsArray.includes (selected (props st)) opt).
      * rewrite list_elem_of_filter. tauto.
      * rewrite elem_of_app, list_elem_of_singleton. intros [?| ->]; auto.
    + destruct (selected (props st)) as [|s0 [|s1 t]];
        try (rewrite list_elem_of_singleton; intros ->; auto).
      destruct (bool_decide (s0 = opt)); [by rewrite elem_of_nil|].
      rewrite list_elem_of_singleton; intros ->; auto.
  - split; [intros _; apply NoDup_Array_from_Set|].
    intros x. unfold selectAll_next.
    rewrite elem_of_Array_from_Set, elem_of_app.
    intros [?|Hx]; [auto|]. right. by eapply elem_of_filtered_of.
  - split; [intros _; constructor|]. intros x. by rewrite elem_of_nil.
Qed.

(** One controlled step keeps the selection duplicate-free and within what
    was selected before or is on offer, and leaves the options alone. *)
Lemma controlled_step_selection st e :
  user_event e = true →
  let st' := controlled_step st e in
  effectiveOptions st' = effectiveOptions st
  ∧ (NoDup (selected (props st)) → NoDup (selected (props st')))
  ∧ ∀ x, x ∈ selected (props st') →
         x ∈ selected (props st) ∨ x ∈ effectiveOptions st.
Proof.
  intros He. cbv zeta. unfold controlled_step.
  pose proof (user_step_fields st e He) as (Ep & _ & _ & Ev).
  pose proof (user_step_calls st e He) as Hcalls.
  destruct (step st e) as [st1 calls]. cbn [fst snd] in *.
  unfold view in Ev. injection Ev as Eo _ _.
  destruct Hcalls as [->|(next & -> & Hp)].
  - cbn [host_echo last]. rewrite Ep, Eo. auto.
  - destruct (proposal_sound st next Hp) as [Hn Hs].
    rewrite <- Ep. destruct (host_echo_call st1 next) as [[-> _]| ->].
    + rewrite Ep, Eo. auto.
    + cbn [with_props with_selected props selected effectiveOptions].
      rewrite Ep. auto.
Qed.

(** X5.  With the host storing every proposal as [FiltersPanel] does,
    across every sequence of user events the selection stays free of
    duplicates, and it only ever holds options that were selected at the
    start or are among the effective options; the effective options are
    not affected by these events. *)
Theorem controlled_selection st es :
  NoDup (selected (props st)) →
  Forall (λ e, user_event e = true) es →
  let st' := controlled_run st es in
  NoDup (selected (props st'))
  ∧ effectiveOptions st' = effectiveOptions st
  ∧ ∀ x, x ∈ selected (props st') →
         x ∈ selected (props st) ∨ x ∈ effectiveOptions st.
Proof.
  intros Hnd Hes. simpl. revert st Hnd.
  induction Hes as [|e es He Hes IH]; intros st Hnd; [simpl; auto|].
  unfold controlled_run in *. simpl.
  destruct (controlled_step_selection st e He) as (Eo & Hn & Hsub).
  destruct (IH _ (Hn Hnd)) as (Hn' & Eo' & Hsub').
  split; [done|]. split; [congruence|].
  intros x Hx. destruct (Hsub' x Hx) as [Hs|Ho]; [by apply Hsub|].
  right. congruence.
Qed.

End ControlledSelection.

Lemma controlled_selection_witness :
  let st' := controlled_run (mount demo_props)
               [KeyDown ArrowDown low_anchor_page; KeyDown Enter low_anchor_page;
                QueryInput "ms"; AllClick; OptionClick 0] in
  NoDup (selected (props st'))
  ∧ effectiveOptions st' = effectiveOptions (mount demo_props)
  ∧ ∀ x, x ∈ selected (props st') →
         x ∈ selected (props (mount demo_props))
         ∨ x ∈ effectiveOptions (mount demo_props).
Proof.
  apply (controlled_selection (mount demo_props)).
  - apply (bool_decide_unpack (NoDup _)). vm_compute. exact I.
  - repeat constructor.
Defined.

(** ** KeyboardNavigator and PlacementEngine along a run *)

Section KeyboardPath.
Context `{Collator}.

Lemma arrow_downs st pg n :
  open st = true →
  hoverIdx st ≤ Z.of_nat (length (filtered st)) - 1 →
  let st' := state_after st (replicate n (KeyDown ArrowDown pg)) in
  open st' = true ∧ filtered st' = filtered st ∧ props st' = props st
  ∧ hoverIdx st' = Z.min (hoverIdx st + Z.of_nat n)
                         (Z.of_nat (length (filtered st)) - 1).
Proof.
  revert st. induction n as [|n IH]; intros st Ho Hh; simpl.
  - unfold state_after. simpl. repeat split; try done. lia.
  - rewrite state_after_cons. cbn [step fst]. unfold onKeyDown.
    rewrite Ho. cbn [negb fst].
    set (st1 := setHoverIdx _ st).
    assert (Hf1 : filtered st1 = filtered st) by reflexivity.
    assert (Hh1 : hoverIdx st1
                  = Z.min (hoverIdx st + 1) (Z.of_nat (length (filtered st)) - 1))
      by reflexivity.
    destruct (IH st1) as (Ho' & Hf' & Hp' & Hh'); [done|rewrite Hf1, Hh1; lia|].
    repeat split; try done; try congruence.
    rewrite Hh', Hf1, Hh1. lia.
Qed.

(** X8.  Keyboard selection: from the closed panel, ArrowDown opens it on
    the first option, [n] further ArrowDown presses move the highlight to
    option [min(n, length - 1)] of a non-empty filtered list, and Enter
    then calls [onChange] with the toggle of exactly that option, leaving
    the panel open and the highlight in place. *)
Theorem keyboard_selects st pg n :
  open st = false → filtered st ≠ [] →
  let st' := state_after st
               (KeyDown ArrowDown pg :: replicate n (KeyDown ArrowDown pg)) in
  let i := Z.min (Z.of_nat n) (Z.of_nat (length (filtered st)) - 1) in
  open st' = true ∧ hoverIdx st' = i
  ∧ ∃ opt, filtered st !! Z.to_nat i = Some opt
      ∧ step st' (KeyDown Enter pg) = (st', toggleOption (props st) opt).
Proof.
  intros Hc Hne. cbv zeta. rewrite state_after_cons.
  assert (E1 : (step st (KeyDown ArrowDown pg)).1
               = setHoverIdx 0 (setOpen true (place pg st))).
  { cbn [step]. unfold onKeyDown. by rewrite Hc. }
  rewrite E1. clear E1.
  set (st1 := setHoverIdx 0 (setOpen true (place pg st))).
  assert (Hf1 : filtered st1 = filtered st).
  { unfold st1. by rewrite filtered_setHoverIdx, filtered_setOpen, filtered_place. }
  assert (Hp1 : props st1 = props st).
  { unfold st1. simpl. by destruct (place_fields pg st) as (-> & _). }
  assert (Hlen : (0 < length (filtered st))%nat).
  { destruct (filtered st); [done|simpl; lia]. }
  destruct (arrow_downs st1 pg n) as (Ho & Hf & Hp & Hh);
    [done|rewrite Hf1; change (hoverIdx st1) with 0; lia|].
  assert (Hh0 : hoverIdx st1 = 0) by reflexivity.
  rewrite Hf1, Hh0, Z.add_0_l in Hh.
  split; [done|]. split; [done|].
  destruct (lookup_lt_is_Some_2 (filtered st)
              (Z.to_nat (Z.min (Z.of_nat n) (Z.of_nat (length (filtered st)) - 1))))
    as [opt Hopt]; [lia|].
  exists opt. split; [done|].
  cbn [step]. unfold onKeyDown. rewrite Ho. cbn [negb].
  unfold hovered. rewrite Hh, Hf, Hf1.
  destruct (Z.min _ _ <? 0) eqn:E; [apply Z.ltb_lt in E; lia|].
  by rewrite Hopt, Hp, Hp1.
Qed.

Lemma place_placed pg st : is_Some (toggleRef pg) → placed (place pg st).
Proof.
  intros [r Hr]. exists pg. unfold place.
  destruct (place_fields pg st) as (Ep & _).
  unfold place in Ep. unfold computePlacement in *. rewrite Hr in *. simpl.
  reflexivity.
Qed.

Lemma placed_same st st' :
  props st' = props st → panelStyle st' = panelStyle st → placed st → placed st'.
Proof. intros Ep Es [pg Hpg]. exists pg. by rewrite Ep, Es. Qed.

Lemma step_placed st e :
  user_event e = true → anchored e = true →
  (open st = true → placed st) →
  open (step st e).1 = true → placed (step st e).1.
Proof.
  intros He Ha Hst.
  destruct e as [p' fv fo|id o|k pg|q|pg| |idx|idx| | |pg]; try discriminate;
    cbn [step fst]; simpl in Ha; try apply bool_decide_eq_true in Ha.
  - unfold onKeyDown. destruct (open st) eqn:Ho; cbn [negb].
    + destruct k; cbn [fst]; try (intros Ho'; by apply Hst); try done.
      destruct (hovered st); cbn [fst]; intros _; by apply Hst.
    + destruct k; cbn [fst]; try (intros Ho'; simpl in Ho'; congruence);
        intros _; apply (placed_same (place pg st)); try done;
        by apply place_placed.
  - intros Ho. by apply (placed_same st), Hst.
  - unfold onToggleClick. destruct (open st) eqn:Ho; cbn [negb]; [done|].
    intros _. apply (placed_same (place pg st)); try done. by apply place_placed.
  - case_bool_decide; cbn [fst]; intros Ho; [|by apply Hst].
    by apply (placed_same st), Hst.
  - destruct (filtered st !! idx); cbn [fst]; intros Ho; by apply Hst.
  - case_bool_decide; cbn [fst]; intros Ho; by apply Hst.
  - case_bool_decide; cbn [fst]; intros Ho; by apply Hst.
  - intros _. by apply place_placed.
Qed.

Lemma open_mount p : open (mount p) = false.
Proof.
  unfold mount, fetch_effect, sync_effect.
  destruct (dataUrl p) as [u|], (values p) as [[|v vs]|];
    try destruct (negb (JsString.truthy u) || values_given p);
    try destruct (no_dataUrl p); reflexivity.
Qed.

Lemma run_placed st0 es :
  Forall (λ e, user_event e = true ∧ anchored e = true) es →
  (open st0 = true → placed st0) →
  (open (state_after st0 es) = true → placed (state_after st0 es))
  ∧ props (state_after st0 es) = props st0.
Proof.
  intros Hes. revert st0.
  induction Hes as [|e es [He Ha] Hes IH]; intros st0 H0; [done|].
  rewrite state_after_cons.
  destruct (IH (step st0 e).1) as [IH1 IH2]; [by apply step_placed|].
  split; [done|]. rewrite IH2.
  by destruct (user_step_fields st0 e He) as (-> & _).
Qed.

(** X9.  With the toggle button mounted, whenever the panel is open after
    a sequence of user events its style is a placement computed from a page
    with an anchor, never the off-screen initial one: [left] is not
    [-9999], and [pad ≤ left] unless [left] is [NaN]. *)
Theorem open_panel_is_placed p es :
  Forall (λ e, user_event e = true ∧ anchored e = true) es →
  let st := state_after (mount p) es in
  open st = true →
  ∃ pg r, toggleRef pg = Some r
    ∧ computePlacement (maxPanelHeight p) pg = Some (panelStyle st)
    ∧ panelStyle st ≠ panelStyle (initial p)
    ∧ left (panelStyle st) ≠ (-9999)%float
    ∧ (pad <=? left (panelStyle st))%float = negb (is_nan (left (panelStyle st))).
Proof.
  intros Hes st.
  assert (Hinv : (open st = true → placed st) ∧ props st = props (mount p)).
  { subst st. apply run_placed; [done|]. rewrite open_mount. discriminate. }
  destruct Hinv as [Hpl Hp]. intros Ho.
  destruct (Hpl Ho) as [pg Hpg]. rewrite Hp in Hpg.
  assert (Hmp : maxPanelHeight (props (mount p)) = maxPanelHeight p).
  { unfold mount. destruct (sync_effect_fetches p (initial p)) as (_ & _ & Es & _).
    assert (A : ∀ s, props (fetch_effect p s) = props s).
    { intros s. unfold fetch_effect. destruct (dataUrl p) as [u|]; [|done].
      by destruct (negb (JsString.truthy u) || values_given p). }
    by rewrite A, Es. }
  rewrite Hmp in Hpg.
  destruct (toggleRef pg) as [r|] eqn:Hr;
    [|unfold computePlacement in Hpg; rewrite Hr in Hpg; discriminate].
  exists pg, r. split; [done|]. split; [done|].
  destruct (computePlacement_fields (maxPanelHeight p) pg r Hr)
    as (s & Hs & _ & El & _).
  assert (s = panelStyle st) as <- by congruence.
  assert (Hleb : (pad <=? left s)%float = negb (is_nan (left s))).
  { rewrite El. unfold clamp.
    destruct (is_nan (Math_max pad (Math_min (r_left r)
                (innerWidth pg - width s - pad)%float))) eqn:En; simpl.
    - destruct (pad <=? _)%float eqn:E; [|done].
      apply leb_not_nan in E as [_ E]. congruence.
    - rewrite Math_max_nan in En. apply orb_false_iff in En as [Np Nm].
      by destruct (Math_max_ge pad _ Np Nm). }
  assert (Hne : left s ≠ (-9999)%float).
  { intros E. rewrite E in Hleb. discriminate Hleb. }
  split; [|done]. intros E. apply Hne. by rewrite E.
Qed.

End KeyboardPath.

Lemma keyboard_selects_witness :
  let st := mount demo_props in
  let st' := state_after st
               (KeyDown ArrowDown low_anchor_page
                :: replicate 5 (KeyDown ArrowDown low_anchor_page)) in
  let i := Z.min (Z.of_nat 5) (Z.of_nat (length (filtered st)) - 1) in
  open st' = true ∧ hoverIdx st' = i
  ∧ ∃ opt, filtered st !! Z.to_nat i = Some opt
      ∧ step st' (KeyDown Enter low_anchor_page)
        = (st', toggleOption (props st) opt).
Proof.
  apply (keyboard_selects (mount demo_props) low_anchor_page 5);
    [reflexivity|discriminate].
Defined.

Lemma open_panel_is_placed_witness :
  let st := state_after (mount demo_props)
              [ToggleClick low_anchor_page; QueryInput "a";
               KeyDown ArrowDown low_anchor_page] in
  ∃ pg r, toggleRef pg = Some r
    ∧ computePlacement (maxPanelHeight demo_props) pg = Some (panelStyle st)
    ∧ panelStyle st ≠ panelStyle (initial demo_props)
    ∧ left (panelStyle st) ≠ (-9999)%float
    ∧ (pad <=? left (panelStyle st))%float = negb (is_nan (left (panelStyle st))).
Proof.
  apply (open_panel_is_placed demo_props
           [ToggleClick low_anchor_page; QueryInput "a";
            KeyDown ArrowDown low_anchor_page]).
  - repeat constructor.
  - reflexivity.
Defined.
